(** * SecretSphere: the encrypted double-draw lottery contract

    A shallow embedding of [contracts/SecretSphere.sol] and the properties of
    its ticket / draw / reward state machine.

    The contract is written against the FHEVM library: an [euint32] is a
    handle into the coprocessor's ciphertext store, every homomorphic
    operation allocates a new handle, a client's encrypted input is stored
    under the handle the client submitted, and the access-control list
    records which accounts may decrypt which handle.  The embedding keeps
    that structure: a store of handles shared by all records, explicit state
    passing through a small state-and-revert monad, and the contract's
    storage as a record. *)

From stdpp Require Import gmap strings list fin_maps.
From Stdlib Require Import ZArith Lia.

Open Scope Z_scope.

(** ** Transactions: state passing with revert *)

Inductive Result (A : Type) : Type :=
| Ok (a : A)
| Revert (reason : string).
Arguments Ok {A} a.
Arguments Revert {A} reason.

Definition M (S A : Type) : Type := S → Result (A * S).

Definition ret {S A} (a : A) : M S A := λ s, Ok (a, s).

Definition bind {S A B} (m : M S A) (k : A → M S B) : M S B :=
  λ s, match m s with
       | Ok (a, s') => k a s'
       | Revert r => Revert r
       end.

Definition gets {S A} (f : S → A) : M S A := λ s, Ok (f s, s).
Definition modify {S} (f : S → S) : M S unit := λ s, Ok (tt, f s).
Definition revert {S A} (reason : string) : M S A := λ _, Revert reason.

(** Solidity's [require(cond, reason)]. *)
Definition require {S} (cond : bool) (reason : string) : M S unit :=
  if cond then ret tt else revert reason.

Declare Scope sol_scope.
Delimit Scope sol_scope with sol.
Notation "'let!' x ':=' c1 'in' c2" := (bind c1 (λ x, c2))
  (at level 10, x name, c1 at level 100, c2 at level 200) : sol_scope.
Notation "c1 ;; c2" := (bind c1 (λ _, c2))
  (at level 100, c2 at level 200, right associativity) : sol_scope.
Open Scope sol_scope.

(** ** Machine integers *)

Abbreviation address := N (only parsing).
Abbreviation bytes := (list Byte.byte) (only parsing).

Definition UINT32_MOD : Z := 2 ^ 32.
Definition UINT256_MOD : Z := 2 ^ 256.

(** A 32-bit plaintext wraps around. *)
Definition wrap32 (v : Z) : Z := v mod UINT32_MOD.

(** Solidity 0.8 checked addition on [uint256]: overflow is a panic. *)
Definition PanicOverflow : string := "panic code 0x11".

Definition checkedAdd {S} (a b : Z) : M S Z :=
  if a + b <? UINT256_MOD then ret (a + b) else revert PanicOverflow.

(** ** The environment of the contract

    What the contract does not decide: its own address, the raw outputs of
    the coprocessor's random generator (indexed by the generator's counter),
    the input verifier (which plaintext, if any, a client handle and proof
    validate to for a given sender), and whether a recipient account that
    does nothing else accepts a plain value transfer. *)

Record Env : Type := mkEnv {
  this : address;
  randSource : N → Z;
  verifyInput : address → N → bytes → option Z;
  recipientAccepts : address → Z → bool
}.

(** ** Ciphertext handles

    A ciphertext handle is a [bytes32].  The coprocessor issues the handle
    of every ciphertext it computes; a client's encrypted input keeps the
    handle under which the client submitted it.  [Imported k] is the client
    handle [k]; [Computed k] is a handle that the coprocessor issued, which
    the embedding numbers in the order of issue; a client handle is never
    one that the coprocessor issued.  The handle of a storage slot that was
    never written is [bytes32(0)], which no operation issues: it is
    [Computed 0]. *)

Inductive handle : Type :=
| Computed (k : N)
| Imported (k : N).

#[global] Instance handle_eq_dec : EqDecision handle.
Proof. solve_decision. Defined.

#[global] Instance handle_countable : Countable handle.
Proof.
  refine (inj_countable'
            (λ h, match h with Computed k => inl k | Imported k => inr k end)
            (λ s, match s with inl k => Computed k | inr k => Imported k end) _).
  now intros [].
Defined.

Definition zeroHandle : handle := Computed 0.

(** The number of handles the coprocessor must have issued for [h] to be
    in use: a computed handle [k] is in use once the counter has passed
    [k], a client handle does not depend on the counter. *)
Definition rank (h : handle) : N :=
  match h with
  | Computed k => (k + 1)%N
  | Imported _ => 0%N
  end.

(** ** The ciphertext store *)

Record FHEState : Type := mkFHE {
  nextHandle : N;
  plain : gmap handle Z;
  acl : gset (handle * address);
  randCounter : N
}.

(** The plaintext behind a handle.  The uninitialised handle (and any
    handle without a ciphertext) reads as zero, as the library treats an
    uninitialised operand as an encryption of zero. *)
Definition decrypt (st : FHEState) (h : handle) : Z :=
  default 0 (plain st !! h).

(** [a] holds decrypt capability on [h]. *)
Definition isAllowed (st : FHEState) (h : handle) (a : address) : Prop :=
  (h, a) ∈ acl st.

(** Modelled from the spec: the FHEVM library [FHE] (imported from
    [@fhevm/solidity/lib/FHE.sol], the ciphertext algebra adapter of the
    specification): addition, remainder, equality, selection, constants,
    random generation, capability grants and the import of a client
    ciphertext, on 32-bit unsigned plaintexts.  Every operation that
    computes a ciphertext returns a handle that was not in use before; the
    import of a client ciphertext returns the client's own handle. *)
Module FHE.

Abbreviation euint32 := handle (only parsing).
Abbreviation ebool := handle (only parsing).
Abbreviation externalEuint32 := N (only parsing).

(** Modelled from the spec: the failure of [importExternal] on a proof that
    does not validate. *)
Definition ProofInvalid : string := "ProofInvalid".

(** The store after the next handle was allocated for the plaintext [v]. *)
Definition alloc (v : Z) (st : FHEState) : FHEState :=
  {| nextHandle := (nextHandle st + 1)%N;
     plain := <[Computed (nextHandle st) := wrap32 v]> (plain st);
     acl := acl st;
     randCounter := randCounter st |}.

(** The store after the client ciphertext [input] was validated to the
    plaintext [v]: the ciphertext is kept under the client's handle, whoever
    submitted it and whether or not that handle was submitted before. *)
Definition adoptInput (input : N) (v : Z) (st : FHEState) : FHEState :=
  {| nextHandle := nextHandle st;
     plain := <[Imported input := wrap32 v]> (plain st);
     acl := acl st;
     randCounter := randCounter st |}.

(** The store after [a] was granted decrypt capability on [h]. *)
Definition grantPair (h : handle) (a : address) (st : FHEState) : FHEState :=
  {| nextHandle := nextHandle st;
     plain := plain st;
     acl := {[ (h, a) ]} ∪ acl st;
     randCounter := randCounter st |}.

(** The store after the random generator advanced. *)
Definition tick (st : FHEState) : FHEState :=
  {| nextHandle := nextHandle st;
     plain := plain st;
     acl := acl st;
     randCounter := (randCounter st + 1)%N |}.

Definition fresh (v : Z) : M FHEState handle :=
  λ st, Ok (Computed (nextHandle st), alloc v st).

Definition grant (h : handle) (a : address) : M FHEState unit :=
  modify (grantPair h a).

(** Modelled from the spec: [constant(plaintextValue)]. *)
Definition asEuint32 (v : Z) : M FHEState euint32 := fresh v.

(** Modelled from the spec: [add(a, b)], on 32 bits. *)
Definition add (a b : euint32) : M FHEState euint32 :=
  λ st, fresh (decrypt st a + decrypt st b) st.

(** Modelled from the spec: [remainder(a, modulus)], by a plaintext
    modulus. *)
Definition rem (a : euint32) (m : Z) : M FHEState euint32 :=
  λ st, fresh (decrypt st a mod m) st.

(** Modelled from the spec: [equals(a, b)], an encrypted boolean. *)
Definition eq (a b : euint32) : M FHEState ebool :=
  λ st, fresh (if decrypt st a =? decrypt st b then 1 else 0) st.

(** Modelled from the spec: [select(cond, ifTrue, ifFalse)]. *)
Definition select (c : ebool) (a b : euint32) : M FHEState euint32 :=
  λ st, fresh (if decrypt st c =? 0 then decrypt st b else decrypt st a) st.

(** Modelled from the spec: [randomBounded()], the next output of the
    random source over the native 32-bit width. *)
Definition randEuint32 (E : Env) : M FHEState euint32 :=
  λ st, fresh (randSource E (randCounter st)) (tick st).

(** Modelled from the spec: [grantSelfAccess(ciphertext)]. *)
Definition allowThis (E : Env) (h : euint32) : M FHEState unit :=
  grant h (this E).

(** Modelled from the spec: [grantAccess(ciphertext, identity)]. *)
Definition allow (h : euint32) (a : address) : M FHEState unit :=
  grant h a.

(** Modelled from the spec: [importExternal(handle, proof)], which validates
    the client's ciphertext for the sender, fails on a bad proof and
    otherwise returns the handle the client submitted. *)
Definition fromExternal (E : Env) (sender : address)
    (input : externalEuint32) (inputProof : bytes) : M FHEState euint32 :=
  match verifyInput E sender input inputProof with
  | Some v => λ st, Ok (Imported input, adoptInput input v st)
  | None => revert ProofInvalid
  end.

End FHE.

(** ** Contract storage *)

Record PlayerState : Type := mkPlayer {
  firstGuess : FHE.euint32;
  secondGuess : FHE.euint32;
  encryptedPoints : FHE.euint32;
  lastWinningFirst : FHE.euint32;
  lastWinningSecond : FHE.euint32;
  hasTicket : bool;
  hasResult : bool;
  hasPoints : bool
}.

(** The value of a mapping slot that was never written. *)
Definition emptyPlayer : PlayerState :=
  mkPlayer zeroHandle zeroHandle zeroHandle zeroHandle zeroHandle
           false false false.

Definition set_firstGuess (v : FHE.euint32) (p : PlayerState) : PlayerState :=
  mkPlayer v (secondGuess p) (encryptedPoints p) (lastWinningFirst p)
           (lastWinningSecond p) (hasTicket p) (hasResult p) (hasPoints p).
Definition set_secondGuess (v : FHE.euint32) (p : PlayerState) : PlayerState :=
  mkPlayer (firstGuess p) v (encryptedPoints p) (lastWinningFirst p)
           (lastWinningSecond p) (hasTicket p) (hasResult p) (hasPoints p).
Definition set_encryptedPoints (v : FHE.euint32) (p : PlayerState) : PlayerState :=
  mkPlayer (firstGuess p) (secondGuess p) v (lastWinningFirst p)
           (lastWinningSecond p) (hasTicket p) (hasResult p) (hasPoints p).
Definition set_lastWinningFirst (v : FHE.euint32) (p : PlayerState) : PlayerState :=
  mkPlayer (firstGuess p) (secondGuess p) (encryptedPoints p) v
           (lastWinningSecond p) (hasTicket p) (hasResult p) (hasPoints p).
Definition set_lastWinningSecond (v : FHE.euint32) (p : PlayerState) : PlayerState :=
  mkPlayer (firstGuess p) (secondGuess p) (encryptedPoints p)
           (lastWinningFirst p) v (hasTicket p) (hasResult p) (hasPoints p).
Definition set_hasTicket (b : bool) (p : PlayerState) : PlayerState :=
  mkPlayer (firstGuess p) (secondGuess p) (encryptedPoints p)
           (lastWinningFirst p) (lastWinningSecond p) b (hasResult p) (hasPoints p).
Definition set_hasResult (b : bool) (p : PlayerState) : PlayerState :=
  mkPlayer (firstGuess p) (secondGuess p) (encryptedPoints p)
           (lastWinningFirst p) (lastWinningSecond p) (hasTicket p) b (hasPoints p).
Definition set_hasPoints (b : bool) (p : PlayerState) : PlayerState :=
  mkPlayer (firstGuess p) (secondGuess p) (encryptedPoints p)
           (lastWinningFirst p) (lastWinningSecond p) (hasTicket p) (hasResult p) b.

Inductive Event : Type :=
| TicketPurchased (player : address)
| DrawCompleted (player : address).

(** The contract's storage, its held balance, the coprocessor state and the
    event log. *)
Record World : Type := mkWorld {
  owner : address;
  totalTickets : Z;
  totalDraws : Z;
  players : gmap address PlayerState;
  balance : Z;
  fhe : FHEState;
  events : list Event
}.

(** [players[user]]: an absent slot reads as the zero record. *)
Definition getPlayer (w : World) (user : address) : PlayerState :=
  default emptyPlayer (players w !! user).

Definition set_players (f : gmap address PlayerState → gmap address PlayerState)
    (w : World) : World :=
  mkWorld (owner w) (totalTickets w) (totalDraws w) (f (players w))
          (balance w) (fhe w) (events w).
Definition set_totalTickets (n : Z) (w : World) : World :=
  mkWorld (owner w) n (totalDraws w) (players w) (balance w) (fhe w) (events w).
Definition set_totalDraws (n : Z) (w : World) : World :=
  mkWorld (owner w) (totalTickets w) n (players w) (balance w) (fhe w) (events w).
Definition set_balance (b : Z) (w : World) : World :=
  mkWorld (owner w) (totalTickets w) (totalDraws w) (players w) b (fhe w) (events w).
Definition set_fhe (st : FHEState) (w : World) : World :=
  mkWorld (owner w) (totalTickets w) (totalDraws w) (players w) (balance w) st
          (events w).

(** A write through the storage pointer [player = players[who]]. *)
Definition updPlayer (who : address) (f : PlayerState → PlayerState) : M World unit :=
  modify (λ w, set_players (insert who (f (getPlayer w who))) w).

Definition emit (e : Event) : M World unit :=
  modify (λ w, mkWorld (owner w) (totalTickets w) (totalDraws w) (players w)
                       (balance w) (fhe w) (events w ++ [e])).

(** Run a library operation on the coprocessor state of the world. *)
Definition liftFHE {A} (m : M FHEState A) : M World A :=
  λ w, match m (fhe w) with
       | Ok (a, st) => Ok (a, set_fhe st w)
       | Revert r => Revert r
       end.

(** ** Revert reasons of the contract, under the names of the error taxonomy *)

Definition InvalidPayment : string := "Ticket price is 0.001 ether".
Definition TicketAlreadyActive : string := "Active ticket in progress".
Definition NoActiveTicket : string := "No active ticket".
Definition NotOwner : string := "Only owner".
Definition InvalidRecipient : string := "Invalid recipient".
Definition InsufficientBalance : string := "Insufficient balance".
Definition TransferFailed : string := "Withdraw failed".

(** [0.001 ether] in wei. *)
Definition TICKET_PRICE : Z := 1000000000000000.

(** ** The contract *)

Section Contract.
Context (E : Env).

(** [modifier onlyOwner] *)
Definition onlyOwner (sender : address) : M World unit :=
  let! o := gets owner in
  require (bool_decide (sender = o)) NotOwner.

(** [constructor()]: the deployer becomes the owner; counters, records
    and ciphertext store start empty.  (Value that the account held before
    the deployment is a [credit] right after it.) *)
Definition deploy (deployer : address) : World :=
  mkWorld deployer 0 0 ∅ 0 (mkFHE 1 ∅ ∅ 0) [].

Definition _randomTicketNumber : M FHEState FHE.euint32 :=
  let! raw := FHE.randEuint32 E in
  let! bounded := FHE.rem raw 9 in
  let! one := FHE.asEuint32 1 in
  FHE.add bounded one.

Definition _calculateReward
    (guessOne guessTwo winningFirst winningSecond : FHE.euint32)
    : M FHEState FHE.euint32 :=
  let! firstMatch := FHE.eq guessOne winningFirst in
  let! secondMatch := FHE.eq guessTwo winningSecond in
  let! a1 := FHE.asEuint32 1 in
  let! a0 := FHE.asEuint32 0 in
  let! firstBit := FHE.select firstMatch a1 a0 in
  let! b1 := FHE.asEuint32 1 in
  let! b0 := FHE.asEuint32 0 in
  let! secondBit := FHE.select secondMatch b1 b0 in
  let! matches := FHE.add firstBit secondBit in
  let! two := FHE.asEuint32 2 in
  let! doubleMatch := FHE.eq matches two in
  let! one := FHE.asEuint32 1 in
  let! singleMatch := FHE.eq matches one in
  let! big := FHE.asEuint32 1000 in
  let! small := FHE.asEuint32 100 in
  let! none := FHE.asEuint32 0 in
  let! consolation := FHE.select singleMatch small none in
  FHE.select doubleMatch big consolation.

Definition buyTicket (sender : address) (value : Z)
    (firstChoice secondChoice : FHE.externalEuint32) (inputProof : bytes)
    : M World unit :=
  (* payable: the attached value is credited before the body runs *)
  modify (λ w, set_balance (balance w + value) w) ;;
  require (value =? TICKET_PRICE) InvalidPayment ;;
  let! active := gets (λ w, hasTicket (getPlayer w sender)) in
  require (negb active) TicketAlreadyActive ;;
  let! encryptedFirst :=
    liftFHE (FHE.fromExternal E sender firstChoice inputProof) in
  let! encryptedSecond :=
    liftFHE (FHE.fromExternal E sender secondChoice inputProof) in
  updPlayer sender (set_firstGuess encryptedFirst) ;;
  updPlayer sender (set_secondGuess encryptedSecond) ;;
  updPlayer sender (set_hasTicket true) ;;
  updPlayer sender (set_hasResult false) ;;
  liftFHE (FHE.allowThis E encryptedFirst) ;;
  liftFHE (FHE.allowThis E encryptedSecond) ;;
  liftFHE (FHE.allow encryptedFirst sender) ;;
  liftFHE (FHE.allow encryptedSecond sender) ;;
  let! n := gets totalTickets in
  let! n' := checkedAdd n 1 in
  modify (set_totalTickets n') ;;
  emit (TicketPurchased sender).

Definition startDraw (sender : address) : M World unit :=
  let! active := gets (λ w, hasTicket (getPlayer w sender)) in
  require active NoActiveTicket ;;
  let! winningFirst := liftFHE _randomTicketNumber in
  let! winningSecond := liftFHE _randomTicketNumber in
  updPlayer sender (set_lastWinningFirst winningFirst) ;;
  updPlayer sender (set_lastWinningSecond winningSecond) ;;
  updPlayer sender (set_hasTicket false) ;;
  updPlayer sender (set_hasResult true) ;;
  liftFHE (FHE.allowThis E winningFirst) ;;
  liftFHE (FHE.allowThis E winningSecond) ;;
  liftFHE (FHE.allow winningFirst sender) ;;
  liftFHE (FHE.allow winningSecond sender) ;;
  let! guessOne := gets (λ w, firstGuess (getPlayer w sender)) in
  let! guessTwo := gets (λ w, secondGuess (getPlayer w sender)) in
  let! reward :=
    liftFHE (_calculateReward guessOne guessTwo winningFirst winningSecond) in
  let! accrued := gets (λ w, hasPoints (getPlayer w sender)) in
  (if accrued then
     let! old := gets (λ w, encryptedPoints (getPlayer w sender)) in
     let! total := liftFHE (FHE.add old reward) in
     updPlayer sender (set_encryptedPoints total)
   else
     updPlayer sender (set_encryptedPoints reward) ;;
     updPlayer sender (set_hasPoints true)) ;;
  let! points := gets (λ w, encryptedPoints (getPlayer w sender)) in
  liftFHE (FHE.allowThis E points) ;;
  let! points' := gets (λ w, encryptedPoints (getPlayer w sender)) in
  liftFHE (FHE.allow points' sender) ;;
  let! n := gets totalDraws in
  let! n' := checkedAdd n 1 in
  modify (set_totalDraws n') ;;
  emit (DrawCompleted sender).

(** The views. *)
Definition getTicket (w : World) (user : address)
    : FHE.euint32 * FHE.euint32 * bool :=
  let player := getPlayer w user in
  (firstGuess player, secondGuess player, hasTicket player).

Definition getLastWinningNumbers (w : World) (user : address)
    : FHE.euint32 * FHE.euint32 * bool :=
  let player := getPlayer w user in
  (lastWinningFirst player, lastWinningSecond player, hasResult player).

Definition getEncryptedPoints (w : World) (user : address)
    : FHE.euint32 * bool :=
  let player := getPlayer w user in
  (encryptedPoints player, hasPoints player).

Definition getPlayerStatus (w : World) (user : address) : bool * bool * bool :=
  let player := getPlayer w user in
  (hasTicket player, hasResult player, hasPoints player).

Definition ticketPrice : Z := TICKET_PRICE.

Definition stats (w : World) : Z * Z * Z :=
  (totalTickets w, totalDraws w, balance w).

(** [to.call{value: amount}("")] to a recipient that does nothing but
    accept or reject the value: the transfer moves [amount] out of the held
    balance when the recipient accepts it.  The contract declares neither
    [receive] nor [fallback], so a transfer to the contract itself is
    rejected.  (A recipient whose code calls back into the contract while it
    receives the value is not described by [recipientAccepts]; see
    [withdrawWith].) *)
Definition call_value (to : address) (amount : Z) : M World bool :=
  λ w, if bool_decide (to = this E) then Ok (false, w)
       else if recipientAccepts E to amount
            then Ok (true, set_balance (balance w - amount) w)
            else Ok (false, w).

(** The body of [withdraw], with the external call
    [to.call{value: amount}("")] as the parameter [transfer]: the call hands
    control to the recipient's code, which may call back into the contract
    (no entry point holds a lock), and it reports success or failure without
    reverting the caller. *)
Definition withdrawWith (transfer : address → Z → M World bool)
    (sender : address) (to : address) (amount : Z) : M World unit :=
  onlyOwner sender ;;
  require (negb (bool_decide (to = 0%N))) InvalidRecipient ;;
  let! held := gets balance in
  require (amount <=? held) InsufficientBalance ;;
  let! success := transfer to amount in
  require success TransferFailed.

Definition withdraw (sender : address) (to : address) (amount : Z)
    : M World unit :=
  withdrawWith call_value sender to amount.

(** *** The public protocol: calls, responses, transactions *)

Inductive Call : Type :=
| BuyTicket (value : Z) (firstChoice secondChoice : FHE.externalEuint32)
            (inputProof : bytes)
| StartDraw
| Withdraw (to : address) (amount : Z)
| GetTicket (user : address)
| GetLastWinningNumbers (user : address)
| GetEncryptedPoints (user : address)
| GetPlayerStatus (user : address)
| TicketPriceOf
| Stats.

Inductive Response : Type :=
| RDone
| RTicket (first second : FHE.euint32) (active : bool)
| RWinning (first second : FHE.euint32) (drawn : bool)
| RPoints (points : FHE.euint32) (accrued : bool)
| RStatus (ticket result points : bool)
| RPrice (price : Z)
| RStats (ticketsSold drawsPlayed contractBalance : Z).

Definition exec (sender : address) (c : Call) : M World Response :=
  match c with
  | BuyTicket value firstChoice secondChoice inputProof =>
      buyTicket sender value firstChoice secondChoice inputProof ;; ret RDone
  | StartDraw => startDraw sender ;; ret RDone
  | Withdraw to amount => withdraw sender to amount ;; ret RDone
  | GetTicket user =>
      gets (λ w, let '(a, b, f) := getTicket w user in RTicket a b f)
  | GetLastWinningNumbers user =>
      gets (λ w, let '(a, b, f) := getLastWinningNumbers w user in RWinning a b f)
  | GetEncryptedPoints user =>
      gets (λ w, let '(a, f) := getEncryptedPoints w user in RPoints a f)
  | GetPlayerStatus user =>
      gets (λ w, let '(t, r, p) := getPlayerStatus w user in RStatus t r p)
  | TicketPriceOf => ret (RPrice ticketPrice)
  | Stats => gets (λ w, let '(t, d, b) := stats w in RStats t d b)
  end.

(** A transaction either commits its final state or reverts and leaves
    the world as it was. *)
Definition step (tx : address * Call) (w : World) : World :=
  match exec tx.1 tx.2 w with
  | Ok (_, w') => w'
  | Revert _ => w
  end.

Definition succeeds (tx : address * Call) (w : World) : bool :=
  match exec tx.1 tx.2 w with
  | Ok _ => true
  | Revert _ => false
  end.

Fixpoint run (txs : list (address * Call)) (w : World) : World :=
  match txs with
  | [] => w
  | tx :: rest => run rest (step tx w)
  end.

End Contract.

(** *** Observations on a world *)

(** Plaintext of the accumulated points of [p]. *)
Definition pointsOf (w : World) (p : address) : Z :=
  decrypt (fhe w) (encryptedPoints (getPlayer w p)).

(** The reward tiers in the words of the specification: 1000 for two
    matching coordinates, 100 for exactly one, 0 otherwise. *)
Definition rewardTier (g1 g2 w1 w2 : Z) : Z :=
  if (g1 =? w1) && (g2 =? w2) then 1000
  else if (g1 =? w1) || (g2 =? w2) then 100
  else 0.

(** A digit drawn from the raw random output [raw]. *)
Definition digitOf (raw : Z) : Z := wrap32 raw mod 9 + 1.

(** A well-formed store: the uninitialised handle holds no ciphertext,
    every handle with a ciphertext or a grant is in use (a computed one
    lies below [nextHandle]), and every plaintext is a 32-bit value. *)
Definition wfStore (st : FHEState) : Prop :=
  (1 ≤ nextHandle st)%N ∧
  (∀ h v, plain st !! h = Some v →
          h ≠ zeroHandle ∧ (rank h ≤ nextHandle st)%N ∧ 0 ≤ v < UINT32_MOD) ∧
  (∀ h a, (h, a) ∈ acl st → h ≠ zeroHandle ∧ (rank h ≤ nextHandle st)%N).

(** [st'] is [st] after [k] further allocations: the handles in use in
    [st] keep their plaintext, and no grant was made. *)
Definition grows (k : N) (st st' : FHEState) : Prop :=
  nextHandle st' = (nextHandle st + k)%N ∧
  acl st' = acl st ∧
  (∀ h, (rank h ≤ nextHandle st)%N → plain st' !! h = plain st !! h) ∧
  (wfStore st → wfStore st').

(** The world after a successful purchase by [sender] whose two inputs
    [fc] and [sc] validated to [v1] and [v2]. *)
Definition boughtWorld (E : Env) (sender : address) (fc sc : N) (v1 v2 : Z)
    (w : World) : World :=
  let p := getPlayer w sender in
  mkWorld (owner w) (totalTickets w + 1) (totalDraws w)
    (<[sender := mkPlayer (Imported fc) (Imported sc) (encryptedPoints p)
                          (lastWinningFirst p) (lastWinningSecond p)
                          true false (hasPoints p)]>
       (players w))
    (balance w + TICKET_PRICE)
    (FHE.grantPair (Imported sc) sender
      (FHE.grantPair (Imported fc) sender
        (FHE.grantPair (Imported sc) (this E)
          (FHE.grantPair (Imported fc) (this E)
            (FHE.adoptInput sc v2 (FHE.adoptInput fc v1 (fhe w)))))))
    (events w ++ [TicketPurchased sender]).

(** The world after a successful draw by [sender] that left the store [st']. *)
Definition drawnWorld (sender : address) (st' : FHEState) (w : World) : World :=
  let n := nextHandle (fhe w) in
  let p := getPlayer w sender in
  mkWorld (owner w) (totalTickets w) (totalDraws w + 1)
    (<[sender := mkPlayer (firstGuess p) (secondGuess p)
                          (Computed (if hasPoints p then n + 26 else n + 25))
                          (Computed (n + 3)) (Computed (n + 7))
                          false true true]> (players w))
    (balance w) st' (events w ++ [DrawCompleted sender]).

(** The store after a successful draw by [sender], whose record was [p]
    and whose store was [st]: the two digits sit at handles [n + 3] and
    [n + 7], the new points at [n + 25] (first accrual) or [n + 26]
    (homomorphic sum), and the contract and the sender were granted the
    three of them. *)
Definition drawnStore (E : Env) (sender : address) (p : PlayerState)
    (st st' : FHEState) : Prop :=
  let n := nextHandle st in
  let pts := (if hasPoints p then n + 26 else n + 25)%N in
  let d1 := digitOf (randSource E (randCounter st)) in
  let d2 := digitOf (randSource E (randCounter st + 1)) in
  let r := rewardTier (decrypt st (firstGuess p)) (decrypt st (secondGuess p))
                      d1 d2 in
  nextHandle st' = (pts + 1)%N ∧
  (∀ h a, (h, a) ∈ acl st' ↔
          (h, a) ∈ acl st ∨
          ((h = Computed (n + 3) ∨ h = Computed (n + 7) ∨ h = Computed pts) ∧
           (a = this E ∨ a = sender))) ∧
  (∀ h, (rank h ≤ n)%N → plain st' !! h = plain st !! h) ∧
  randCounter st' = (randCounter st + 2)%N ∧
  decrypt st' (Computed (n + 3)) = d1 ∧
  decrypt st' (Computed (n + 7)) = d2 ∧
  decrypt st' (Computed pts)
  = (if hasPoints p then wrap32 (decrypt st (encryptedPoints p) + r) else r) ∧
  (wfStore st → wfStore st').

(** The ciphertext fields of a record. *)
Definition handlesOf (p : PlayerState) : list handle :=
  [firstGuess p; secondGuess p; encryptedPoints p;
   lastWinningFirst p; lastWinningSecond p].

(** The fields of a record that the contract computes, and the fields that
    hold a client's input. *)
Definition computedFields (p : PlayerState) : list handle :=
  [encryptedPoints p; lastWinningFirst p; lastWinningSecond p].

Definition guessFields (p : PlayerState) : list handle :=
  [firstGuess p; secondGuess p].

(** The state invariant of the contract: the store is well formed; every
    stored handle is in use; every written points or winning field is a
    computed handle, readable by the contract and by the owner of the record
    and by nobody else; a record that never accrued points holds the
    uninitialised handle there; every written guess field is a client handle
    that the verifier validated for the owner of the record, readable by the
    contract and by that owner; and whoever else can read a client handle
    had it validated by the verifier too. *)
Definition Inv (E : Env) (w : World) : Prop :=
  wfStore (fhe w) ∧
  (∀ q h, h ∈ handlesOf (getPlayer w q) → (rank h ≤ nextHandle (fhe w))%N) ∧
  (∀ q h, h ∈ computedFields (getPlayer w q) → h ≠ zeroHandle →
          ∀ a, isAllowed (fhe w) h a ↔ a = this E ∨ a = q) ∧
  (∀ q, hasPoints (getPlayer w q) = false →
        encryptedPoints (getPlayer w q) = zeroHandle) ∧
  (∀ q h, h ∈ computedFields (getPlayer w q) → ∃ k, h = Computed k) ∧
  (∀ q h, h ∈ guessFields (getPlayer w q) →
          h = zeroHandle ∨
          ∃ k, h = Imported k ∧
               isAllowed (fhe w) h (this E) ∧ isAllowed (fhe w) h q ∧
               ∃ ip, is_Some (verifyInput E q k ip)) ∧
  (∀ k a, isAllowed (fhe w) (Imported k) a →
          a = this E ∨ ∃ ip, is_Some (verifyInput E a k ip)).

(** *** Transactions and traces *)

Definition isView (c : Call) : bool :=
  match c with
  | BuyTicket _ _ _ _ | StartDraw | Withdraw _ _ => false
  | _ => true
  end.

(** [tx] is a [startDraw] sent by [p]. *)
Definition isDrawBy (p : address) (tx : address * Call) : bool :=
  bool_decide (tx.1 = p) && match tx.2 with StartDraw => true | _ => false end.

(** [tx] is a [buyTicket] sent by [p]. *)
Definition isBuyBy (p : address) (tx : address * Call) : bool :=
  bool_decide (tx.1 = p) &&
  match tx.2 with BuyTicket _ _ _ _ => true | _ => false end.

(** Value can reach the account of the contract without a call to the
    contract (before the deployment, or as the beneficiary of a
    self-destruct or of a block reward): the held balance, which the
    contract reads as [address(this).balance], rises by [v]. *)
Definition credit (v : N) (w : World) : World :=
  set_balance (balance w + Z.of_N v) w.

(** The worlds the contract can be in: after deployment, any sequence of
    transactions, with value reaching the account at any moment. *)
Inductive reachable (E : Env) : World → Prop :=
| reach_deploy deployer : reachable E (deploy deployer)
| reach_step tx w : reachable E w → reachable E (step E tx w)
| reach_credit v w : reachable E w → reachable E (credit v w).

(** What one transaction does to the world [w]: nothing (a view, or a
    revert), a withdrawal by the owner, a purchase, or a draw.  The boolean
    tells whether the transaction succeeded. *)
Inductive Outcome (E : Env) (w : World) : address * Call → bool → World → Prop :=
| OutSame sender c ok :
    ok = false ∨ isView c = true →
    Outcome E w (sender, c) ok w
| OutWithdraw to amount :
    to ≠ 0%N → amount ≤ balance w → to ≠ this E →
    recipientAccepts E to amount = true →
    Outcome E w (owner w, Withdraw to amount) true
            (set_balance (balance w - amount) w)
| OutBuy sender fc sc ip v1 v2 :
    hasTicket (getPlayer w sender) = false →
    verifyInput E sender fc ip = Some v1 →
    verifyInput E sender sc ip = Some v2 →
    Outcome E w (sender, BuyTicket TICKET_PRICE fc sc ip) true
            (boughtWorld E sender fc sc v1 v2 w)
| OutDraw sender st' :
    hasTicket (getPlayer w sender) = true →
    drawnStore E sender (getPlayer w sender) (fhe w) st' →
    Outcome E w (sender, StartDraw) true (drawnWorld sender st' w).

(** The reward of a draw by [p] that took the world from [w] to [w']: the
    tier of the guesses of the ticket that was active in [w] against the
    winning digits recorded in [w']. *)
Definition drawReward (w w' : World) (p : address) : Z :=
  rewardTier (decrypt (fhe w) (firstGuess (getPlayer w p)))
             (decrypt (fhe w) (secondGuess (getPlayer w p)))
             (decrypt (fhe w') (lastWinningFirst (getPlayer w' p)))
             (decrypt (fhe w') (lastWinningSecond (getPlayer w' p))).

(** The rewards of the successful draws of [p] along a trace, in order. *)
Fixpoint rewardsOf (E : Env) (p : address) (txs : list (address * Call))
    (w : World) : list Z :=
  match txs with
  | [] => []
  | tx :: rest =>
      (if isDrawBy p tx && succeeds E tx w
       then [drawReward w (step E tx w) p] else [])
      ++ rewardsOf E p rest (step E tx w)
  end.

Definition sumZ (l : list Z) : Z := foldr Z.add 0 l.

(** The number of successful draws of [p] along a trace. *)
Fixpoint drawsOf (E : Env) (p : address) (txs : list (address * Call))
    (w : World) : nat :=
  match txs with
  | [] => O
  | tx :: rest =>
      ((if isDrawBy p tx && succeeds E tx w then 1 else 0)
       + drawsOf E p rest (step E tx w))%nat
  end.

(** *** Sample data *)

(** A concrete environment: the contract lives at address 100, every random
    output is [0], a client handle [n] validates to the plaintext [n] for
    any sender and under any proof, and every recipient except account 66
    accepts transfers. *)
Definition E0 : Env :=
  mkEnv 100 (λ _, 0) (λ _ n _, Some (Z.of_N n))
        (λ to _, negb (bool_decide (to = 66%N))).

Definition alice : address := 7%N.
Definition bob : address := 8%N.
Definition deployer : address := 1%N.

Definition w0 : World := deploy deployer.

(** A store holding four ciphertexts: the guesses [2] and [5] at the
    computed handles [1] and [2], the winning digits [2] and [8] at the
    computed handles [3] and [4]. *)
Definition sampleStore : FHEState :=
  FHE.alloc 8 (FHE.alloc 2 (FHE.alloc 5 (FHE.alloc 2 (mkFHE 1 ∅ ∅ 0)))).

(** Alice buys a ticket on the digits [(1, 1)], which are the digits every
    draw of [E0] produces, and then draws. *)
Definition buyOnes : Call := BuyTicket TICKET_PRICE 1 1 [].

Definition aliceRound : list (address * Call) :=
  [(alice, buyOnes); (alice, StartDraw)].

Fixpoint rounds (k : nat) : list (address * Call) :=
  match k with
  | O => []
  | S k' => rounds k' ++ aliceRound
  end.

(** The world after Alice's first round, and after she bought a second
    ticket in it. *)
Definition afterRound : World := run E0 aliceRound w0.

Definition secondBuy : Call := BuyTicket TICKET_PRICE 1 3 [].

Definition afterSecondBuy : World := step E0 (alice, secondBuy) afterRound.

(** Alice holds a ticket while Bob plays a round and the owner withdraws. *)
Definition afterFirstBuy : World := step E0 (alice, buyOnes) w0.

Definition othersPlay : list (address * Call) :=
  [(bob, buyOnes); (bob, StartDraw); (deployer, Withdraw bob 5);
   (alice, GetTicket bob)].

(** The largest number of winning rounds whose total still fits 32 bits. *)
Definition lastFit : nat := N.to_nat 4294967.

(** *** Further observations on worlds and traces *)

Definition isWithdraw (c : Call) : bool :=
  match c with Withdraw _ _ => true | _ => false end.

(** The numbers of [TicketPurchased] and of [DrawCompleted] events of a log. *)
Fixpoint purchasedIn (evs : list Event) : nat :=
  match evs with
  | [] => O
  | TicketPurchased _ :: rest => S (purchasedIn rest)
  | DrawCompleted _ :: rest => purchasedIn rest
  end.

Fixpoint completedIn (evs : list Event) : nat :=
  match evs with
  | [] => O
  | TicketPurchased _ :: rest => completedIn rest
  | DrawCompleted _ :: rest => S (completedIn rest)
  end.

(** The number of records that hold an active ticket. *)
Definition activeTickets (w : World) : nat :=
  size (filter (λ kv : address * PlayerState, hasTicket kv.2 = true) (players w)).

(** The lifecycle of a record: a ticket and a result never coexist, a
    result implies accrued points, a record without accrued points has its
    points and winning fields unwritten, a record with neither a ticket nor
    points was never written at all, and recorded winning digits lie in
    [1,9]. *)
Definition lifecycle (w : World) (p : address) : Prop :=
  let r := getPlayer w p in
  hasTicket r && hasResult r = false ∧
  (hasResult r = true → hasPoints r = true) ∧
  (hasPoints r = false →
   encryptedPoints r = zeroHandle ∧ lastWinningFirst r = zeroHandle ∧
   lastWinningSecond r = zeroHandle) ∧
  (hasTicket r = false → hasPoints r = false → r = emptyPlayer) ∧
  (hasPoints r = true →
   1 ≤ decrypt (fhe w) (lastWinningFirst r) ≤ 9 ∧
   1 ≤ decrypt (fhe w) (lastWinningSecond r) ≤ 9).


(** A second concrete environment: as [E0], but the input verifier rejects
    an empty proof. *)
Definition E1 : Env :=
  mkEnv 100 (λ _, 0)
        (λ _ n ip, match ip with [] => None | _ => Some (Z.of_N n) end)
        (λ to _, negb (bool_decide (to = 66%N))).




(** Under [E0] Bob buys a ticket with the client handle of Alice's ticket. *)
Definition afterSharedBuy : World :=
  run E0 [(alice, buyOnes); (bob, buyOnes)] w0.

(** Bob buys a ticket whose first guess is [0], outside the digit range. *)
Definition buyZero : Call := BuyTicket TICKET_PRICE 0 1 [].

Definition afterZeroBuy : World := step E0 (bob, buyZero) afterRound.

(** *** The cipher display of the front end
    ([home/src/components/LotteryApp.tsx]) *)

(** JavaScript's [s.slice(start, end)] on a sequence of code units: a
    negative index counts from the end, indices are clamped to the length,
    and [end] defaults to the length. *)
Definition jsSlice {A} (s : list A) (start : Z) (stop : option Z) : list A :=
  let len := Z.of_nat (length s) in
  let clamp i := if i <? 0 then Z.max (len + i) 0 else Z.min i len in
  let from := clamp start in
  let to := match stop with None => len | Some e => clamp e end in
  take (Z.to_nat (to - from)) (drop (Z.to_nat from) s).

Definition ZERO_CIPHER : list Ascii.ascii :=
  String.list_ascii_of_string
    "0x0000000000000000000000000000000000000000000000000000000000000000".

Definition dashes : list Ascii.ascii := String.list_ascii_of_string "--".
Definition ellipsis : list Ascii.ascii := String.list_ascii_of_string "...".

(** [formatCipher(value)], with [None] for [undefined]. *)
Definition formatCipher (value : option (list Ascii.ascii)) : list Ascii.ascii :=
  match value with
  | None => dashes
  | Some v =>
      if bool_decide (v = []) || bool_decide (v = ZERO_CIPHER) then dashes
      else jsSlice v 0 (Some 10) ++ ellipsis ++ jsSlice v (-6) None
  end.

(** * Properties *)

(** ** The ciphertext store *)

Section StoreFacts.

Lemma wrap32_range v : 0 ≤ wrap32 v < UINT32_MOD.
Proof. unfold wrap32, UINT32_MOD. apply Z.mod_pos_bound. lia. Qed.

Lemma wrap32_small v : 0 ≤ v < UINT32_MOD → wrap32 v = v.
Proof. intros Hv. unfold wrap32. now apply Z.mod_small. Qed.

Lemma nextHandle_alloc v st :
  nextHandle (FHE.alloc v st) = (nextHandle st + 1)%N.
Proof. reflexivity. Qed.

Lemma acl_alloc v st : acl (FHE.alloc v st) = acl st.
Proof. reflexivity. Qed.

Lemma nextHandle_tick st : nextHandle (FHE.tick st) = nextHandle st.
Proof. reflexivity. Qed.

Lemma decrypt_tick st h : decrypt (FHE.tick st) h = decrypt st h.
Proof. reflexivity. Qed.

Lemma decrypt_grantPair st h h' a :
  decrypt (FHE.grantPair h' a st) h = decrypt st h.
Proof. reflexivity. Qed.

Lemma decrypt_alloc_here v st h :
  h = Computed (nextHandle st) → decrypt (FHE.alloc v st) h = wrap32 v.
Proof. intros ->. unfold decrypt. simpl. now rewrite lookup_insert_eq. Qed.

Lemma plain_alloc_below v st h :
  (rank h ≤ nextHandle st)%N → plain (FHE.alloc v st) !! h = plain st !! h.
Proof.
  intros Hlt. simpl. rewrite lookup_insert_ne; [done|].
  intros <-. simpl in Hlt. lia.
Qed.

Lemma decrypt_alloc_other v st h :
  (rank h ≤ nextHandle st)%N → decrypt (FHE.alloc v st) h = decrypt st h.
Proof. intros Hlt. unfold decrypt. now rewrite plain_alloc_below. Qed.

Lemma decrypt_adoptInput_computed k v st j :
  decrypt (FHE.adoptInput k v st) (Computed j) = decrypt st (Computed j).
Proof. unfold decrypt. simpl. now rewrite lookup_insert_ne. Qed.

Lemma decrypt_adoptInput_here k v st :
  decrypt (FHE.adoptInput k v st) (Imported k) = wrap32 v.
Proof. unfold decrypt. simpl. now rewrite lookup_insert_eq. Qed.

Lemma decrypt_adoptInput_other k v st j :
  j ≠ k → decrypt (FHE.adoptInput k v st) (Imported j) = decrypt st (Imported j).
Proof.
  intros Hne. unfold decrypt. simpl. rewrite lookup_insert_ne; [done|].
  congruence.
Qed.

Lemma decrypt_range st h : wfStore st → 0 ≤ decrypt st h < UINT32_MOD.
Proof.
  intros (_ & Hp & _). unfold decrypt.
  destruct (plain st !! h) as [v|] eqn:Hh; simpl.
  - now apply Hp in Hh.
  - unfold UINT32_MOD. lia.
Qed.

Lemma decrypt_zero st : wfStore st → decrypt st zeroHandle = 0.
Proof.
  intros (_ & Hp & _). unfold decrypt.
  destruct (plain st !! zeroHandle) as [v|] eqn:Hh; [|done].
  apply Hp in Hh. now destruct Hh as (Hz & _).
Qed.

Lemma wfStore_alloc v st : wfStore st → wfStore (FHE.alloc v st).
Proof.
  intros (Hn & Hp & Ha). split; [|split]; simpl.
  - lia.
  - intros h x. rewrite lookup_insert. case_decide as Hh.
    + intros [= <-]. subst h. split; [|split; [simpl; lia | apply wrap32_range]].
      unfold zeroHandle. intros [= Hz]. lia.
    + intros Hx. apply Hp in Hx. destruct Hx as (? & ? & ?).
      split; [done|]. split; [lia | done].
  - intros h a Hin. apply Ha in Hin. destruct Hin. split; [done | lia].
Qed.

Lemma wfStore_grantPair h a st :
  h ≠ zeroHandle → (rank h ≤ nextHandle st)%N →
  wfStore st → wfStore (FHE.grantPair h a st).
Proof.
  intros Hz Hh (Hn & Hp & Ha). split; [|split]; simpl; auto.
  intros h' a'. rewrite elem_of_union, elem_of_singleton.
  intros [[= -> ->] | Hin]; [done | eauto].
Qed.

Lemma wfStore_adoptInput k v st : wfStore st → wfStore (FHE.adoptInput k v st).
Proof.
  intros (Hn & Hp & Ha). split; [|split]; simpl; auto.
  intros h x. rewrite lookup_insert. case_decide as Hh.
  - intros [= <-]. subst h. split; [done|]. split; [simpl; lia | apply wrap32_range].
  - apply Hp.
Qed.

Lemma wfStore_deploy : wfStore (mkFHE 1 ∅ ∅ 0).
Proof.
  split; [|split]; simpl.
  - lia.
  - intros h v. now rewrite lookup_empty.
  - intros h a. now rewrite elem_of_empty.
Qed.

(** One library call at the head of a sequence. *)
Lemma bind_asEuint32 {B} v (k : handle → M FHEState B) st :
  bind (FHE.asEuint32 v) k st = k (Computed (nextHandle st)) (FHE.alloc v st).
Proof. reflexivity. Qed.

Lemma bind_add {B} a b (k : handle → M FHEState B) st :
  bind (FHE.add a b) k st
  = k (Computed (nextHandle st)) (FHE.alloc (decrypt st a + decrypt st b) st).
Proof. reflexivity. Qed.

Lemma bind_rem {B} a m (k : handle → M FHEState B) st :
  bind (FHE.rem a m) k st
  = k (Computed (nextHandle st)) (FHE.alloc (decrypt st a mod m) st).
Proof. reflexivity. Qed.

Lemma bind_eq {B} a b (k : handle → M FHEState B) st :
  bind (FHE.eq a b) k st
  = k (Computed (nextHandle st))
      (FHE.alloc (if decrypt st a =? decrypt st b then 1 else 0) st).
Proof. reflexivity. Qed.

Lemma bind_select {B} c a b (k : handle → M FHEState B) st :
  bind (FHE.select c a b) k st
  = k (Computed (nextHandle st))
      (FHE.alloc (if decrypt st c =? 0 then decrypt st b else decrypt st a) st).
Proof. reflexivity. Qed.

Lemma bind_randEuint32 {B} E (k : handle → M FHEState B) st :
  bind (FHE.randEuint32 E) k st
  = k (Computed (nextHandle st))
      (FHE.alloc (randSource E (randCounter st)) (FHE.tick st)).
Proof. reflexivity. Qed.

End StoreFacts.

(** Normalise handles and plaintext reads over a chain of allocations. *)
Ltac handle_here :=
  rewrite ?nextHandle_alloc, ?nextHandle_tick;
  first [reflexivity | f_equal; lia].

Ltac handle_below :=
  rewrite ?nextHandle_alloc, ?nextHandle_tick; cbn [rank]; lia.

Ltac store_norm :=
  repeat first
    [ rewrite nextHandle_alloc
    | rewrite nextHandle_tick
    | rewrite decrypt_tick
    | rewrite decrypt_alloc_here by handle_here
    | rewrite decrypt_alloc_other by handle_below ].

Ltac fhe_step :=
  first [ rewrite bind_asEuint32 | rewrite bind_add | rewrite bind_rem
        | rewrite bind_eq | rewrite bind_select | rewrite bind_randEuint32 ];
  store_norm.

Section PrivateFunctions.
Variable E : Env.

Lemma randomTicketNumber_run st :
  _randomTicketNumber E st
  = Ok (Computed (nextHandle st + 3),
        FHE.alloc (digitOf (randSource E (randCounter st)))
          (FHE.alloc 1
            (FHE.alloc (wrap32 (randSource E (randCounter st)) mod 9)
              (FHE.alloc (randSource E (randCounter st)) (FHE.tick st))))).
Proof.
  unfold _randomTicketNumber.
  do 3 fhe_step.
  unfold FHE.add, FHE.fresh. store_norm.
  rewrite (wrap32_small 1) by (unfold UINT32_MOD; lia).
  rewrite (wrap32_small (_ mod 9)).
  - unfold digitOf. do 3 f_equal. lia.
  - pose proof (Z.mod_pos_bound (wrap32 (randSource E (randCounter st))) 9).
    unfold UINT32_MOD. lia.
Qed.

Lemma grows_alloc k v st st' :
  grows k st st' → grows (k + 1) st (FHE.alloc v st').
Proof.
  intros (Hn & Ha & Hf & Hw). split; [|split; [|split]].
  - rewrite nextHandle_alloc, Hn. lia.
  - now rewrite acl_alloc.
  - intros h Hh. rewrite plain_alloc_below by lia. now apply Hf.
  - intros Hst. apply wfStore_alloc. now apply Hw.
Qed.

Lemma grows_refl st : grows 0 st st.
Proof. split; [lia | auto]. Qed.

Lemma grows_tick st : grows 0 st (FHE.tick st).
Proof. split; [simpl; lia | auto]. Qed.

Lemma randomTicketNumber_spec st :
  ∃ st', _randomTicketNumber E st = Ok (Computed (nextHandle st + 3), st') ∧
         grows 4 st st' ∧
         randCounter st' = (randCounter st + 1)%N ∧
         decrypt st' (Computed (nextHandle st + 3))
         = digitOf (randSource E (randCounter st)).
Proof.
  eexists. split; [apply randomTicketNumber_run|]. split; [|split].
  - change 4%N with (0 + 1 + 1 + 1 + 1)%N.
    do 4 apply grows_alloc. apply grows_tick.
  - reflexivity.
  - store_norm. unfold digitOf. apply wrap32_small.
    pose proof (Z.mod_pos_bound (wrap32 (randSource E (randCounter st))) 9).
    unfold UINT32_MOD. lia.
Qed.

Lemma calculateReward_spec g1 g2 w1 w2 st :
  (rank g1 ≤ nextHandle st)%N → (rank g2 ≤ nextHandle st)%N →
  (rank w1 ≤ nextHandle st)%N → (rank w2 ≤ nextHandle st)%N →
  ∃ st', _calculateReward g1 g2 w1 w2 st
         = Ok (Computed (nextHandle st + 17), st') ∧
         grows 18 st st' ∧
         randCounter st' = randCounter st ∧
         decrypt st' (Computed (nextHandle st + 17))
         = rewardTier (decrypt st g1) (decrypt st g2) (decrypt st w1) (decrypt st w2).
Proof.
  intros Hg1 Hg2 Hw1 Hw2.
  unfold _calculateReward.
  do 17 fhe_step.
  unfold FHE.select, FHE.fresh. store_norm.
  eexists. split; [|split; [|split]].
  - do 3 f_equal. lia.
  - change 18%N with (0+1+1+1+1+1+1+1+1+1+1+1+1+1+1+1+1+1+1)%N.
    do 18 apply grows_alloc. apply grows_refl.
  - reflexivity.
  - store_norm. unfold rewardTier.
    destruct (decrypt st g1 =? decrypt st w1), (decrypt st g2 =? decrypt st w2);
      reflexivity.
Qed.

End PrivateFunctions.

(** ** Single transactions *)

Section WorldSteps.
Variable E : Env.

Lemma bind_liftFHE {A B} (m : M FHEState A) (k : A → M World B) a st'
    o nt td pl bal st ev :
  m st = Ok (a, st') →
  bind (liftFHE m) k (mkWorld o nt td pl bal st ev)
  = k a (mkWorld o nt td pl bal st' ev).
Proof. intros H. unfold bind, liftFHE. simpl. now rewrite H. Qed.

Lemma bind_allowThis {B} h (k : unit → M World B) o nt td pl bal st ev :
  bind (liftFHE (FHE.allowThis E h)) k (mkWorld o nt td pl bal st ev)
  = k tt (mkWorld o nt td pl bal (FHE.grantPair h (this E) st) ev).
Proof. reflexivity. Qed.

Lemma bind_allow {B} h a (k : unit → M World B) o nt td pl bal st ev :
  bind (liftFHE (FHE.allow h a)) k (mkWorld o nt td pl bal st ev)
  = k tt (mkWorld o nt td pl bal (FHE.grantPair h a st) ev).
Proof. reflexivity. Qed.

Lemma bind_gets {S A B} (f : S → A) (k : A → M S B) s :
  bind (gets f) k s = k (f s) s.
Proof. reflexivity. Qed.

Lemma bind_modify {S B} (f : S → S) (k : unit → M S B) s :
  bind (modify f) k s = k tt (f s).
Proof. reflexivity. Qed.

Lemma bind_require {S B} (c : bool) reason (k : unit → M S B) s :
  bind (require c reason) k s = if c then k tt s else Revert reason.
Proof. now destruct c. Qed.

Lemma bind_checkedAdd {S B} a b (k : Z → M S B) s :
  bind (checkedAdd a b) k s
  = if a + b <? UINT256_MOD then k (a + b) s else Revert PanicOverflow.
Proof. unfold bind, checkedAdd. now destruct (a + b <? UINT256_MOD). Qed.

Lemma bind_updPlayer {B} who f (k : unit → M World B) o nt td pl bal st ev :
  bind (updPlayer who f) k (mkWorld o nt td pl bal st ev)
  = k tt (mkWorld o nt td (<[who := f (default emptyPlayer (pl !! who))]> pl)
                  bal st ev).
Proof. reflexivity. Qed.

Lemma bind_bind {S A B C} (m : M S A) (k : A → M S B) (k' : B → M S C) s :
  bind (bind m k) k' s = bind m (λ a, bind (k a) k') s.
Proof. unfold bind. destruct (m s) as [[a s']|]; reflexivity. Qed.

Ltac world_norm :=
  unfold getPlayer, set_balance, set_totalTickets, set_totalDraws;
  cbn [players fhe owner totalTickets totalDraws balance events];
  rewrite ?lookup_insert_eq, ?insert_insert_eq;
  repeat match goal with
         | H : ?m !! ?k = Some _ |- context [?m !! ?k] => rewrite H
         | H : ?m !! ?k = None |- context [?m !! ?k] => rewrite H
         end;
  cbn [default from_option id
       set_lastWinningFirst set_lastWinningSecond set_hasTicket set_hasResult
       set_hasPoints set_encryptedPoints set_firstGuess set_secondGuess
       firstGuess secondGuess encryptedPoints lastWinningFirst
       lastWinningSecond hasTicket hasResult hasPoints].

Ltac world_step :=
  first [ rewrite bind_gets | rewrite bind_updPlayer | rewrite bind_allowThis
        | rewrite bind_allow | rewrite bind_modify ];
  world_norm.

Lemma startDraw_spec sender w :
  let p := getPlayer w sender in
  let n := nextHandle (fhe w) in
  hasTicket p = true →
  (rank (firstGuess p) ≤ n)%N → (rank (secondGuess p) ≤ n)%N →
  (rank (encryptedPoints p) ≤ n)%N →
  ∃ st', drawnStore E sender p (fhe w) st' ∧
    startDraw E sender w
    = if totalDraws w + 1 <? UINT256_MOD
      then Ok (tt, drawnWorld sender st' w)
      else Revert PanicOverflow.
Proof.
  destruct w as [o nt td pl bal st ev]. unfold getPlayer. simpl.
  destruct (pl !! sender) as [[g1 g2 pts l1 l2 ht hr hp]|] eqn:Hp;
    simpl; [|discriminate].
  intros -> Hg1 Hg2 Hpts.
  destruct (randomTicketNumber_spec E st) as (st1 & Hr1 & Hgr1 & Hc1 & Hd1).
  destruct (randomTicketNumber_spec E st1) as (st2 & Hr2 & Hgr2 & Hc2 & Hd2).
  unfold startDraw.
  destruct Hgr1 as (Hn1 & Ha1 & Hf1 & Hw1).
  destruct Hgr2 as (Hn2 & Ha2 & Hf2 & Hw2).
  rewrite Hn1 in *.
  replace (nextHandle st + 4 + 3)%N with (nextHandle st + 7)%N in * by lia.
  replace (nextHandle st + 4 + 4)%N with (nextHandle st + 8)%N in * by lia.
  set (n := nextHandle st) in *.
  set (S2 := FHE.grantPair (Computed (n + 7)) sender
               (FHE.grantPair (Computed (n + 3)) sender
                 (FHE.grantPair (Computed (n + 7)) (this E)
                   (FHE.grantPair (Computed (n + 3)) (this E) st2)))).
  assert (HnS2 : nextHandle S2 = (n + 8)%N) by exact Hn2.
  destruct (calculateReward_spec g1 g2 (Computed (n + 3)) (Computed (n + 7)) S2)
    as (st3 & Hrw & (Hn3 & Ha3 & Hf3 & Hw3) & Hc3 & Hd3);
    try (rewrite HnS2; cbn [rank]; lia).
  rewrite HnS2 in *.
  replace (n + 8 + 17)%N with (n + 25)%N in * by lia.
  replace (n + 8 + 18)%N with (n + 26)%N in * by lia.
  assert (Hdec2 : ∀ h, (rank h ≤ n)%N → decrypt st2 h = decrypt st h).
  { intros h Hh. unfold decrypt. rewrite Hf2, Hf1; [done | lia | lia]. }
  assert (HdS2 : ∀ h, decrypt S2 h = decrypt st2 h) by reflexivity.
  assert (Hd1' : decrypt st2 (Computed (n + 3))
                 = digitOf (randSource E (randCounter st))).
  { rewrite <- Hd1. unfold decrypt. rewrite Hf2; [done | cbn [rank]; lia]. }
  assert (Hd3' : decrypt st3 (Computed (n + 25))
                 = rewardTier (decrypt st g1) (decrypt st g2)
                     (digitOf (randSource E (randCounter st)))
                     (digitOf (randSource E (randCounter st + 1)))).
  { rewrite Hd3, !HdS2, !Hdec2, Hd1', Hd2, Hc1 by assumption. reflexivity. }
  assert (Hdec3 : ∀ h, (rank h ≤ n + 8)%N → decrypt st3 h = decrypt st2 h).
  { intros h Hh. unfold decrypt. rewrite Hf3; [done | lia]. }
  assert (Hframe3 : ∀ h, (rank h ≤ n)%N → plain st3 !! h = plain st !! h).
  { intros h Hh. rewrite Hf3, <- Hf1, <- Hf2; [done | lia..]. }
  assert (Hacl3 : ∀ h a, (h, a) ∈ acl st3 ↔
            (h, a) ∈ acl st ∨
            ((h = Computed (n + 3) ∨ h = Computed (n + 7)) ∧
             (a = this E ∨ a = sender))).
  { intros h a. rewrite Ha3. unfold S2. simpl. rewrite Ha2, Ha1.
    rewrite !elem_of_union, !elem_of_singleton, !pair_eq.
    intuition (subst; auto). }
  assert (Hrc3 : randCounter st3 = (randCounter st + 2)%N).
  { rewrite Hc3. unfold S2. simpl. rewrite Hc2, Hc1. lia. }
  assert (Hnz : ∀ k, (n ≤ k)%N → wfStore st → Computed k ≠ zeroHandle).
  { intros k Hk (Hone & _). unfold zeroHandle. intros [= ->]. fold n in Hone. lia. }
  assert (Hwf3 : wfStore st → wfStore st3).
  { intros Hst. apply Hw3. unfold S2.
    assert (Hn2' : nextHandle st2 = (n + 8)%N) by exact Hn2.
    pose proof (Hw2 (Hw1 Hst)) as Hst2.
    repeat (apply wfStore_grantPair;
            [apply Hnz; [lia | exact Hst] | simpl; rewrite Hn2'; lia|]).
    exact Hst2. }
  unfold startDraw, drawnWorld. world_norm.
  world_step. rewrite bind_require.
  rewrite (bind_liftFHE _ _ _ _ _ _ _ _ _ _ _ Hr1).
  rewrite (bind_liftFHE _ _ _ _ _ _ _ _ _ _ _ Hr2).
  do 10 world_step.
  rewrite (bind_liftFHE _ _ _ _ _ _ _ _ _ _ _ Hrw).
  world_step.
  destruct hp; cbv iota.
  - exists (FHE.grantPair (Computed (n + 26)) sender
             (FHE.grantPair (Computed (n + 26)) (this E)
               (FHE.alloc (decrypt st3 pts + decrypt st3 (Computed (n + 25)))
                          st3))).
    split; cycle 1.
    { rewrite bind_bind. world_step. rewrite bind_bind.
      erewrite bind_liftFHE by reflexivity.
      do 6 world_step.
      rewrite bind_checkedAdd. destruct (td + 1 <? UINT256_MOD); [|reflexivity].
      world_step. unfold emit, modify. simpl.
      rewrite Hn3. reflexivity. }
    unfold drawnStore. cbn [hasPoints firstGuess secondGuess encryptedPoints].
    fold n. rewrite !decrypt_grantPair.
    split; [simpl; rewrite Hn3; lia|].
    split.
    { intros h a. simpl. rewrite !elem_of_union, !elem_of_singleton, Hacl3.
      rewrite !pair_eq. intuition (subst; auto). }
    split.
    { intros h Hh. simpl. rewrite lookup_insert_ne; [now apply Hframe3|].
      intros <-. simpl in Hh. lia. }
    split; [exact Hrc3|].
    rewrite !decrypt_alloc_other by (cbn [rank]; lia).
    rewrite decrypt_alloc_here by (now rewrite Hn3).
    split; [rewrite Hdec3 by (cbn [rank]; lia); exact Hd1'|].
    split; [rewrite Hdec3, Hd2, Hc1 by (cbn [rank]; lia); reflexivity|].
    split; [rewrite Hd3', (Hdec3 pts), Hdec2 by lia; reflexivity|].
    intros Hst. pose proof (Hwf3 Hst) as Hst3.
    repeat (apply wfStore_grantPair;
            [apply Hnz; [lia | exact Hst] | simpl; rewrite Hn3; lia|]).
    now apply wfStore_alloc.
  - exists (FHE.grantPair (Computed (n + 25)) sender
             (FHE.grantPair (Computed (n + 25)) (this E) st3)).
    split; cycle 1.
    { rewrite bind_bind. do 7 world_step.
      rewrite bind_checkedAdd. destruct (td + 1 <? UINT256_MOD); [|reflexivity].
      world_step. unfold emit, modify. simpl. reflexivity. }
    unfold drawnStore. cbn [hasPoints firstGuess secondGuess encryptedPoints].
    fold n. rewrite !decrypt_grantPair.
    split; [simpl; rewrite Hn3; lia|].
    split.
    { intros h a. simpl. rewrite !elem_of_union, !elem_of_singleton, Hacl3.
      rewrite !pair_eq. intuition (subst; auto). }
    split; [intros h Hh; simpl; rewrite Hframe3 by lia; done|].
    split; [exact Hrc3|].
    split; [rewrite Hdec3 by (cbn [rank]; lia); exact Hd1'|].
    split; [rewrite Hdec3, Hd2, Hc1 by (cbn [rank]; lia); reflexivity|].
    split; [exact Hd3'|].
    intros Hst. pose proof (Hwf3 Hst) as Hst3.
    repeat (apply wfStore_grantPair;
            [apply Hnz; [lia | exact Hst] | simpl; rewrite Hn3; lia|]).
    exact Hst3.
Qed.

Lemma startDraw_noTicket sender w :
  hasTicket (getPlayer w sender) = false →
  startDraw E sender w = Revert NoActiveTicket.
Proof.
  intros Ht. unfold startDraw. rewrite bind_gets, Ht. reflexivity.
Qed.

Lemma buyTicket_cases sender value fc sc ip w :
  buyTicket E sender value fc sc ip w
  = if negb (value =? TICKET_PRICE) then Revert InvalidPayment
    else if hasTicket (getPlayer w sender) then Revert TicketAlreadyActive
    else match verifyInput E sender fc ip with
         | None => Revert FHE.ProofInvalid
         | Some v1 =>
             match verifyInput E sender sc ip with
             | None => Revert FHE.ProofInvalid
             | Some v2 =>
                 if totalTickets w + 1 <? UINT256_MOD
                 then Ok (tt, boughtWorld E sender fc sc v1 v2 w)
                 else Revert PanicOverflow
             end
         end.
Proof.
  destruct w as [o nt td pl bal st ev].
  unfold buyTicket, boughtWorld. world_norm.
  world_step. rewrite bind_require.
  destruct (Z.eqb_spec value TICKET_PRICE) as [->|Hne]; [|reflexivity].
  cbn [negb]. world_step. rewrite bind_require.
  destruct (pl !! sender) as [[g1 g2 pts l1 l2 ht hr hp]|] eqn:Hp;
    cbn [default from_option id hasTicket emptyPlayer encryptedPoints
         lastWinningFirst lastWinningSecond hasPoints].
  - destruct ht; [reflexivity|]. cbn [negb].
    unfold FHE.fromExternal.
    destruct (verifyInput E sender fc ip) as [v1|]; [|reflexivity].
    destruct (verifyInput E sender sc ip) as [v2|]; [|reflexivity].
    cbv iota.
    erewrite bind_liftFHE by reflexivity.
    erewrite bind_liftFHE by reflexivity.
    do 9 world_step. rewrite bind_checkedAdd.
    destruct (nt + 1 <? UINT256_MOD); [|reflexivity].
    world_step. reflexivity.
  - cbn [negb].
    unfold FHE.fromExternal.
    destruct (verifyInput E sender fc ip) as [v1|]; [|reflexivity].
    destruct (verifyInput E sender sc ip) as [v2|]; [|reflexivity].
    cbv iota.
    erewrite bind_liftFHE by reflexivity.
    erewrite bind_liftFHE by reflexivity.
    do 9 world_step. rewrite bind_checkedAdd.
    destruct (nt + 1 <? UINT256_MOD); [|reflexivity].
    world_step. reflexivity.
Qed.

End WorldSteps.


(** ** The state invariant *)

Section Invariant.
Variable E : Env.

Lemma withdrawWith_cases (transfer : address → Z → M World bool)
    sender to amount w :
  withdrawWith transfer sender to amount w
  = if negb (bool_decide (sender = owner w)) then Revert NotOwner
    else if bool_decide (to = 0%N) then Revert InvalidRecipient
    else if negb (amount <=? balance w) then Revert InsufficientBalance
    else match transfer to amount w with
         | Ok (true, w') => Ok (tt, w')
         | Ok (false, _) => Revert TransferFailed
         | Revert r => Revert r
         end.
Proof.
  unfold withdrawWith, onlyOwner.
  rewrite bind_bind, bind_gets, bind_require.
  destruct (bool_decide (sender = owner w)); [|reflexivity].
  cbn [negb]. rewrite bind_require.
  destruct (bool_decide (to = 0%N)); [reflexivity|].
  cbn [negb]. rewrite bind_gets, bind_require.
  destruct (amount <=? balance w); [|reflexivity].
  cbn [negb]. unfold bind.
  destruct (transfer to amount w) as [[[|] w']|r]; reflexivity.
Qed.

Lemma withdraw_cases sender to amount w :
  withdraw E sender to amount w
  = if negb (bool_decide (sender = owner w)) then Revert NotOwner
    else if bool_decide (to = 0%N) then Revert InvalidRecipient
    else if negb (amount <=? balance w) then Revert InsufficientBalance
    else if bool_decide (to = this E) then Revert TransferFailed
    else if recipientAccepts E to amount
         then Ok (tt, set_balance (balance w - amount) w)
         else Revert TransferFailed.
Proof.
  unfold withdraw. rewrite withdrawWith_cases. unfold call_value.
  destruct (bool_decide (sender = owner w)); [|reflexivity].
  destruct (bool_decide (to = 0%N)); [reflexivity|].
  destruct (amount <=? balance w); [|reflexivity].
  cbn [negb].
  destruct (bool_decide (to = this E)); [reflexivity|].
  destruct (recipientAccepts E to amount); reflexivity.
Qed.

Lemma elem_of_handlesOf h p :
  h ∈ handlesOf p ↔
  h = firstGuess p ∨ h = secondGuess p ∨ h = encryptedPoints p ∨
  h = lastWinningFirst p ∨ h = lastWinningSecond p.
Proof.
  unfold handlesOf. rewrite !elem_of_cons, elem_of_nil. tauto.
Qed.

Lemma elem_of_computedFields h p :
  h ∈ computedFields p ↔
  h = encryptedPoints p ∨ h = lastWinningFirst p ∨ h = lastWinningSecond p.
Proof.
  unfold computedFields. rewrite !elem_of_cons, elem_of_nil. tauto.
Qed.

Lemma elem_of_guessFields h p :
  h ∈ guessFields p ↔ h = firstGuess p ∨ h = secondGuess p.
Proof.
  unfold guessFields. rewrite !elem_of_cons, elem_of_nil. tauto.
Qed.

Lemma handlesOf_split h p :
  h ∈ handlesOf p ↔ h ∈ guessFields p ∨ h ∈ computedFields p.
Proof.
  rewrite elem_of_handlesOf, elem_of_guessFields, elem_of_computedFields. tauto.
Qed.

Lemma getPlayer_boughtWorld sender fc sc v1 v2 w q :
  getPlayer (boughtWorld E sender fc sc v1 v2 w) q
  = if decide (q = sender)
    then mkPlayer (Imported fc) (Imported sc)
           (encryptedPoints (getPlayer w sender))
           (lastWinningFirst (getPlayer w sender))
           (lastWinningSecond (getPlayer w sender))
           true false (hasPoints (getPlayer w sender))
    else getPlayer w q.
Proof.
  unfold getPlayer, boughtWorld. simpl.
  destruct (decide (q = sender)) as [->|Hne].
  - now rewrite lookup_insert_eq.
  - now rewrite lookup_insert_ne.
Qed.

Lemma getPlayer_drawnWorld sender st' w q :
  getPlayer (drawnWorld sender st' w) q
  = if decide (q = sender)
    then mkPlayer (firstGuess (getPlayer w sender))
           (secondGuess (getPlayer w sender))
           (Computed (if hasPoints (getPlayer w sender)
                      then nextHandle (fhe w) + 26 else nextHandle (fhe w) + 25))
           (Computed (nextHandle (fhe w) + 3)) (Computed (nextHandle (fhe w) + 7))
           false true true
    else getPlayer w q.
Proof.
  unfold getPlayer, drawnWorld. simpl.
  destruct (decide (q = sender)) as [->|Hne].
  - now rewrite lookup_insert_eq.
  - now rewrite lookup_insert_ne.
Qed.

Lemma getPlayer_deploy deployer q : getPlayer (deploy deployer) q = emptyPlayer.
Proof. unfold getPlayer. simpl. now rewrite lookup_empty. Qed.

Lemma Inv_deploy deployer : Inv E (deploy deployer).
Proof.
  split; [apply wfStore_deploy|].
  split; [|split; [|split; [|split; [|split]]]].
  - intros q h. rewrite getPlayer_deploy, elem_of_handlesOf. simpl.
    intros [-> | [-> | [-> | [-> | ->]]]]; simpl; lia.
  - intros q h. rewrite getPlayer_deploy, elem_of_computedFields. simpl.
    intros [-> | [-> | ->]] Hnz; done.
  - intros q _. now rewrite getPlayer_deploy.
  - intros q h. rewrite getPlayer_deploy, elem_of_computedFields. simpl.
    intros [-> | [-> | ->]]; now exists 0%N.
  - intros q h. rewrite getPlayer_deploy, elem_of_guessFields. simpl.
    intros [-> | ->]; now left.
  - intros k a. unfold isAllowed. simpl. now rewrite elem_of_empty.
Qed.

(** The grants of a purchase. *)
Lemma acl_boughtWorld sender fc sc v1 v2 w h a :
  (h, a) ∈ acl (fhe (boughtWorld E sender fc sc v1 v2 w)) ↔
  (h, a) ∈ acl (fhe w) ∨
  ((h = Imported fc ∨ h = Imported sc) ∧ (a = this E ∨ a = sender)).
Proof.
  unfold boughtWorld. simpl.
  rewrite !elem_of_union, !elem_of_singleton, !pair_eq.
  intuition (subst; auto).
Qed.

Lemma Inv_boughtWorld sender fc sc ip v1 v2 w :
  verifyInput E sender fc ip = Some v1 →
  verifyInput E sender sc ip = Some v2 →
  Inv E w → Inv E (boughtWorld E sender fc sc v1 v2 w).
Proof.
  intros H1 H2 (Hwf & Hlt & Hacl & Hpts & Hcomp & Hguess & Himp).
  pose proof Hwf as (Hone & Hplain & Hgr).
  pose proof (acl_boughtWorld sender fc sc v1 v2 w) as Hacl'.
  assert (Hmono : ∀ h a, isAllowed (fhe w) h a →
                         isAllowed (fhe (boughtWorld E sender fc sc v1 v2 w)) h a).
  { intros h a Hin. apply Hacl'. now left. }
  split; [|split; [|split; [|split; [|split; [|split]]]]].
  - unfold boughtWorld. simpl.
    repeat (apply wfStore_grantPair; [done | simpl; lia |]).
    now do 2 apply wfStore_adoptInput.
  - intros q h. rewrite getPlayer_boughtWorld.
    change (nextHandle (fhe (boughtWorld E sender fc sc v1 v2 w)))
      with (nextHandle (fhe w)).
    destruct (decide (q = sender)) as [->|Hne]; [|apply Hlt].
    rewrite elem_of_handlesOf. simpl.
    pose proof (Hlt sender) as Hs. setoid_rewrite elem_of_handlesOf in Hs.
    intros [-> | [-> | [-> | [-> | ->]]]]; simpl; try lia; apply Hs; auto 6.
  - intros q h Hin Hnz a.
    assert (Hin' : h ∈ computedFields (getPlayer w q)).
    { rewrite getPlayer_boughtWorld in Hin.
      destruct (decide (q = sender)) as [->|Hne]; exact Hin. }
    destruct (Hcomp q h Hin') as (k & ->).
    rewrite <- (Hacl q _ Hin' Hnz a). unfold isAllowed. rewrite Hacl'.
    split; [intros [H|[[H|H] _]]; [exact H | discriminate..] | auto].
  - intros q. rewrite getPlayer_boughtWorld.
    destruct (decide (q = sender)) as [->|Hne]; simpl; auto.
  - intros q h. rewrite getPlayer_boughtWorld.
    destruct (decide (q = sender)) as [->|Hne]; apply Hcomp.
  - intros q h. rewrite getPlayer_boughtWorld.
    destruct (decide (q = sender)) as [->|Hne].
    + rewrite elem_of_guessFields. simpl.
      intros [-> | ->]; right;
        [exists fc | exists sc]; (split; [reflexivity|]);
        (split; [apply Hacl'; auto|]); (split; [apply Hacl'; auto|]);
        exists ip; [rewrite H1 | rewrite H2]; eauto.
    + intros Hin. destruct (Hguess q h Hin) as [-> | (k & -> & Ht & Hq & Hv)];
        [now left|].
      right. exists k. auto.
  - intros k a Hin. apply Hacl' in Hin.
    destruct Hin as [Hin | [[[= ->] | [= ->]] [-> | ->]]];
      [now apply Himp | now left | | now left |];
      right; exists ip; [rewrite H1 | rewrite H2]; eauto.
Qed.

Lemma Inv_drawnWorld sender st' w :
  Inv E w →
  drawnStore E sender (getPlayer w sender) (fhe w) st' →
  Inv E (drawnWorld sender st' w).
Proof.
  intros (Hwf & Hlt & Hacl & Hpts & Hcomp & Hguess & Himp)
         (Hn' & Hacl' & Hfr & Hrc & Hd1 & Hd2 & Hdp & Hwf').
  pose proof Hwf as (Hone & Hplain & Hgr).
  set (n := nextHandle (fhe w)) in *.
  set (p := getPlayer w sender) in *.
  set (pts' := (if hasPoints p then n + 26 else n + 25)%N) in *.
  assert (Hpts' : (n + 25 ≤ pts' ≤ n + 26)%N)
    by (unfold pts'; destruct (hasPoints p); lia).
  assert (Hfresh : ∀ k a, (n ≤ k)%N → (Computed k, a) ∉ acl (fhe w)).
  { intros k a Hk Hin. apply Hgr in Hin. simpl in Hin. fold n in Hin. lia. }
  assert (Hmono : ∀ h a, isAllowed (fhe w) h a → isAllowed st' h a).
  { intros h a Hin. apply Hacl'. now left. }
  split; [|split; [|split; [|split; [|split; [|split]]]]].
  - unfold drawnWorld. simpl. auto.
  - intros q h. rewrite getPlayer_drawnWorld.
    change (nextHandle (fhe (drawnWorld sender st' w))) with (nextHandle st').
    rewrite Hn'.
    destruct (decide (q = sender)) as [->|Hne].
    + rewrite elem_of_handlesOf. simpl. fold n p pts'.
      pose proof (Hlt sender) as Hs. setoid_rewrite elem_of_handlesOf in Hs.
      intros [-> | [-> | [-> | [-> | ->]]]]; simpl; try lia;
        (eapply N.le_trans; [apply Hs; auto 6 | fold n; lia]).
    + intros Hin. apply Hlt in Hin. fold n in Hin. lia.
  - intros q h Hin Hnz a. unfold isAllowed.
    change (fhe (drawnWorld sender st' w)) with st'. rewrite Hacl'.
    rewrite getPlayer_drawnWorld in Hin.
    destruct (decide (q = sender)) as [->|Hne].
    + rewrite elem_of_computedFields in Hin. simpl in Hin. fold n p pts' in Hin.
      assert (Hk : ∃ k, h = Computed k ∧ (n ≤ k)%N).
      { destruct Hin as [-> | [-> | ->]]; eexists; (split; [reflexivity | lia]). }
      destruct Hk as (k & -> & Hk).
      split; [|intros; right; split; [tauto | assumption]].
      intros [Hin' | [_ Ha]]; [|exact Ha].
      exfalso. exact (Hfresh k a Hk Hin').
    + assert (Hb : (rank h ≤ n)%N).
      { apply (Hlt q). apply handlesOf_split. now right. }
      rewrite <- (Hacl q h Hin Hnz a). unfold isAllowed.
      split; [intros [H|[H _]]; [exact H|] | auto].
      exfalso. destruct H as [-> | [-> | ->]]; simpl in Hb; lia.
  - intros q. rewrite getPlayer_drawnWorld.
    destruct (decide (q = sender)) as [->|Hne]; simpl; [discriminate | auto].
  - intros q h. rewrite getPlayer_drawnWorld.
    destruct (decide (q = sender)) as [->|Hne]; [|apply Hcomp].
    rewrite elem_of_computedFields. simpl.
    intros [-> | [-> | ->]]; eauto.
  - intros q h Hin.
    assert (Hin' : h ∈ guessFields (getPlayer w q)).
    { rewrite getPlayer_drawnWorld in Hin.
      destruct (decide (q = sender)) as [->|Hne]; exact Hin. }
    destruct (Hguess q h Hin') as [-> | (k & -> & Ht & Hq & Hv)]; [now left|].
    right. exists k. change (fhe (drawnWorld sender st' w)) with st'. auto.
  - intros k a Hin. apply Himp. unfold isAllowed in *.
    change (fhe (drawnWorld sender st' w)) with st' in Hin.
    apply Hacl' in Hin. destruct Hin as [Hin | [[H | [H | H]] _]];
      [exact Hin | discriminate..].
Qed.

End Invariant.

(** ** Transactions and reachable worlds *)

Section Transactions.
Variable E : Env.

Lemma step_outcome tx w :
  Inv E w → Outcome E w tx (succeeds E tx w) (step E tx w).
Proof.
  intros HI. destruct tx as [sender c].
  unfold step, succeeds. cbn [fst snd].
  destruct c as [value fc sc ip | | to amount | user | user | user | user | | ];
    cbn [exec]; try (constructor; right; reflexivity).
  - unfold bind at 1 2. rewrite buyTicket_cases.
    destruct (Z.eqb_spec value TICKET_PRICE) as [->|Hne]; cbn [negb];
      [|constructor; now left].
    destruct (hasTicket (getPlayer w sender)) eqn:Ht; [constructor; now left|].
    destruct (verifyInput E sender fc ip) as [v1|] eqn:H1; [|constructor; now left].
    destruct (verifyInput E sender sc ip) as [v2|] eqn:H2; [|constructor; now left].
    destruct (totalTickets w + 1 <? UINT256_MOD); [|constructor; now left].
    cbn [ret]. now apply OutBuy with (ip := ip).
  - unfold bind at 1 2.
    destruct (hasTicket (getPlayer w sender)) eqn:Ht.
    + destruct HI as (Hwf & Hlt & _).
      assert (Hb : ∀ h, h ∈ handlesOf (getPlayer w sender) →
                        (rank h ≤ nextHandle (fhe w))%N) by (intros h; apply Hlt).
      setoid_rewrite elem_of_handlesOf in Hb.
      destruct (startDraw_spec E sender w Ht) as (st' & Hst & ->);
        [apply Hb; auto 6 .. |].
      destruct (totalDraws w + 1 <? UINT256_MOD); [|constructor; now left].
      cbn [ret]. now apply OutDraw.
    + rewrite startDraw_noTicket by assumption. constructor. now left.
  - unfold bind at 1 2. rewrite withdraw_cases.
    destruct (bool_decide_reflect (sender = owner w)) as [->|Hne]; cbn [negb];
      [|constructor; now left].
    destruct (bool_decide_reflect (to = 0%N)); [constructor; now left|].
    destruct (Z.leb_spec amount (balance w)); cbn [negb];
      [|constructor; now left].
    destruct (bool_decide_reflect (to = this E)); [constructor; now left|].
    destruct (recipientAccepts E to amount) eqn:Hacc; [|constructor; now left].
    cbn [ret]. now apply OutWithdraw.
Qed.

Lemma Inv_step tx w : Inv E w → Inv E (step E tx w).
Proof.
  intros HI. destruct (step_outcome tx w HI); auto.
  - now apply Inv_boughtWorld with (ip := ip).
  - now apply Inv_drawnWorld.
Qed.

Lemma Inv_run txs w : Inv E w → Inv E (run E txs w).
Proof.
  revert w. induction txs as [|tx txs IH]; intros w HI; simpl; [done|].
  apply IH. now apply Inv_step.
Qed.

Lemma Inv_reachable w : reachable E w → Inv E w.
Proof.
  induction 1 as [d | tx w _ IH | v w _ IH];
    [apply Inv_deploy | now apply Inv_step | exact IH].
Qed.

Lemma reachable_run txs w : reachable E w → reachable E (run E txs w).
Proof.
  revert w. induction txs as [|tx txs IH]; intros w Hw; simpl; [done|].
  apply IH. now constructor.
Qed.

Lemma reachable_trace deployer txs : reachable E (run E txs (deploy deployer)).
Proof. apply reachable_run. constructor. Qed.

Lemma run_app txs1 txs2 w : run E (txs1 ++ txs2) w = run E txs2 (run E txs1 w).
Proof. revert w. induction txs1 as [|tx txs1 IH]; intros w; simpl; auto. Qed.

End Transactions.

(** ** Points and flags along a trace *)

Section Accrual.
Variable E : Env.

Lemma rewardTier_values a b c d :
  rewardTier a b c d = 0 ∨ rewardTier a b c d = 100 ∨ rewardTier a b c d = 1000.
Proof.
  unfold rewardTier. destruct (a =? c), (b =? d); simpl; auto.
Qed.

Lemma rewardTier_range a b c d : 0 ≤ rewardTier a b c d ≤ 1000.
Proof. destruct (rewardTier_values a b c d) as [-> | [-> | ->]]; lia. Qed.

(** A purchase leaves the plaintext of every computed ciphertext as it was. *)
Lemma decrypt_boughtWorld sender fc sc v1 v2 w k :
  decrypt (fhe (boughtWorld E sender fc sc v1 v2 w)) (Computed k)
  = decrypt (fhe w) (Computed k).
Proof.
  unfold boughtWorld. cbn [fhe].
  now rewrite !decrypt_grantPair, !decrypt_adoptInput_computed.
Qed.

(** The plaintexts of the guesses right after a purchase. *)
Lemma decrypt_boughtWorld_guesses sender fc sc ip v1 v2 w :
  verifyInput E sender fc ip = Some v1 →
  verifyInput E sender sc ip = Some v2 →
  decrypt (fhe (boughtWorld E sender fc sc v1 v2 w)) (Imported fc) = wrap32 v1 ∧
  decrypt (fhe (boughtWorld E sender fc sc v1 v2 w)) (Imported sc) = wrap32 v2.
Proof.
  intros H1 H2. unfold boughtWorld. cbn [fhe]. rewrite !decrypt_grantPair.
  split; [|apply decrypt_adoptInput_here].
  destruct (decide (fc = sc)) as [->|Hne].
  - rewrite decrypt_adoptInput_here. congruence.
  - rewrite decrypt_adoptInput_other by exact Hne.
    apply decrypt_adoptInput_here.
Qed.

Lemma decrypt_drawnStore sender p st st' h :
  drawnStore E sender p st st' → (rank h ≤ nextHandle st)%N →
  decrypt st' h = decrypt st h.
Proof.
  intros (_ & _ & Hfr & _) Hh. unfold decrypt. now rewrite Hfr.
Qed.

Lemma pointsOf_range w p : Inv E w → 0 ≤ pointsOf w p < UINT32_MOD.
Proof. intros (Hwf & _). now apply decrypt_range. Qed.

Lemma points_outcome p tx ok w w' :
  Inv E w → Outcome E w tx ok w' →
  pointsOf w' p
  = if isDrawBy p tx && ok
    then wrap32 (pointsOf w p + drawReward w w' p)
    else pointsOf w p.
Proof.
  intros HI Hout. pose proof HI as (Hwf & Hlt & _ & Hzero & Hcomp & _).
  assert (Hpts : ∀ q, (rank (encryptedPoints (getPlayer w q))
                       ≤ nextHandle (fhe w))%N).
  { intros q. apply (Hlt q). rewrite elem_of_handlesOf. auto. }
  assert (Hcpts : ∀ q, ∃ k, encryptedPoints (getPlayer w q) = Computed k).
  { intros q. apply (Hcomp q). rewrite elem_of_computedFields. auto. }
  destruct Hout as [sender c ok Hok | to amount | sender fc sc ip v1 v2 Ht H1 H2
                   | sender st' Ht Hst].
  - destruct Hok as [-> | Hv].
    + now rewrite andb_false_r.
    + unfold isDrawBy. cbn [snd]. destruct c; try discriminate;
        now rewrite andb_false_r.
  - unfold isDrawBy. cbn [snd]. now rewrite andb_false_r.
  - unfold isDrawBy. cbn [snd]. rewrite andb_false_r. cbn [andb].
    unfold pointsOf. rewrite getPlayer_boughtWorld.
    destruct (decide (p = sender)) as [->|Hne]; cbn [encryptedPoints];
      [destruct (Hcpts sender) as (k & ->) | destruct (Hcpts p) as (k & ->)];
      apply decrypt_boughtWorld.
  - unfold isDrawBy. cbn [fst snd]. rewrite !andb_true_r.
    destruct (bool_decide_reflect (sender = p)) as [<- | Hne].
    + unfold pointsOf, drawReward. rewrite getPlayer_drawnWorld.
      destruct (decide (sender = sender)) as [_|]; [|done].
      cbn [encryptedPoints lastWinningFirst lastWinningSecond fhe drawnWorld].
      destruct Hst as (_ & _ & _ & _ & Hd1 & Hd2 & Hdp & _).
      rewrite Hd1, Hd2, Hdp.
      destruct (hasPoints (getPlayer w sender)) eqn:Hhp; [reflexivity|].
      rewrite (Hzero sender Hhp), (decrypt_zero _ Hwf), Z.add_0_l.
      symmetry. apply wrap32_small.
      pose proof (rewardTier_range
        (decrypt (fhe w) (firstGuess (getPlayer w sender)))
        (decrypt (fhe w) (secondGuess (getPlayer w sender)))
        (digitOf (randSource E (randCounter (fhe w))))
        (digitOf (randSource E (randCounter (fhe w) + 1)))).
      unfold UINT32_MOD. lia.
    + unfold pointsOf. rewrite getPlayer_drawnWorld.
      destruct (decide (p = sender)) as [->|_]; [done|].
      cbn [fhe drawnWorld]. eapply decrypt_drawnStore; [exact Hst | apply Hpts].
Qed.

Lemma rewardsOf_values p txs w :
  Forall (λ r, r = 0 ∨ r = 100 ∨ r = 1000) (rewardsOf E p txs w).
Proof.
  revert w. induction txs as [|tx txs IH]; intros w; simpl; [constructor|].
  apply Forall_app. split; [|apply IH].
  destruct (isDrawBy p tx && succeeds E tx w); constructor; [|constructor].
  apply rewardTier_values.
Qed.

Lemma rewardsOf_length p txs w :
  length (rewardsOf E p txs w) = drawsOf E p txs w.
Proof.
  revert w. induction txs as [|tx txs IH]; intros w; simpl; [done|].
  rewrite length_app, IH.
  now destruct (isDrawBy p tx && succeeds E tx w).
Qed.

Lemma sumZ_app l1 l2 : sumZ (l1 ++ l2) = sumZ l1 + sumZ l2.
Proof. unfold sumZ. induction l1 as [|x l1 IH]; simpl; lia. Qed.

Lemma sumZ_nonneg l :
  Forall (λ r, r = 0 ∨ r = 100 ∨ r = 1000) l → 0 ≤ sumZ l.
Proof.
  induction 1 as [|x l Hx _ IH]; unfold sumZ in *; simpl; [lia|].
  destruct Hx as [-> | [-> | ->]]; lia.
Qed.

Lemma rewardsOf_app p txs1 txs2 w :
  rewardsOf E p (txs1 ++ txs2) w
  = rewardsOf E p txs1 w ++ rewardsOf E p txs2 (run E txs1 w).
Proof.
  revert w. induction txs1 as [|tx txs1 IH]; intros w; simpl; [done|].
  now rewrite IH, app_assoc.
Qed.

Lemma wrap32_add_l a b : wrap32 (wrap32 a + b) = wrap32 (a + b).
Proof. unfold wrap32. apply Zplus_mod_idemp_l. Qed.

Lemma points_run p txs w :
  Inv E w →
  pointsOf (run E txs w) p = wrap32 (pointsOf w p + sumZ (rewardsOf E p txs w)).
Proof.
  revert w. induction txs as [|tx txs IH]; intros w HI; simpl.
  - unfold sumZ. simpl. rewrite Z.add_0_r. symmetry. apply wrap32_small.
    now apply pointsOf_range.
  - rewrite (IH _ (Inv_step E tx w HI)).
    rewrite (points_outcome p tx _ w _ HI (step_outcome E tx w HI)).
    destruct (isDrawBy p tx && succeeds E tx w).
    + rewrite sumZ_app, wrap32_add_l. f_equal. unfold sumZ. simpl. lia.
    + reflexivity.
Qed.

Lemma pointsOf_deploy deployer p : pointsOf (deploy deployer) p = 0.
Proof. reflexivity. Qed.

(** Flags of a record across one transaction. *)
Lemma flags_outcome p tx ok w w' :
  Outcome E w tx ok w' →
  (hasPoints (getPlayer w p) = true → hasPoints (getPlayer w' p) = true) ∧
  hasResult (getPlayer w' p)
  = (if isBuyBy p tx && ok then false
     else if isDrawBy p tx && ok then true
     else hasResult (getPlayer w p)) ∧
  hasTicket (getPlayer w' p)
  = (if isBuyBy p tx && ok then true
     else if isDrawBy p tx && ok then false
     else hasTicket (getPlayer w p)).
Proof.
  intros Hout.
  destruct Hout as [sender c ok Hok | to amount | sender fc sc ip v1 v2 Ht H1 H2
                   | sender st' Ht Hst]; unfold isBuyBy, isDrawBy; cbn [fst snd].
  - destruct Hok as [-> | Hv].
    + now rewrite !andb_false_r.
    + destruct c; try discriminate; now rewrite !andb_false_r.
  - now rewrite !andb_false_r.
  - rewrite !andb_true_r, andb_false_r. rewrite getPlayer_boughtWorld.
    destruct (bool_decide_reflect (sender = p)) as [<- | Hne].
    + destruct (decide (sender = sender)); [|done]. simpl. auto.
    + destruct (decide (p = sender)) as [->|_]; [done|]. auto.
  - rewrite !andb_true_r, andb_false_r. rewrite getPlayer_drawnWorld.
    destruct (bool_decide_reflect (sender = p)) as [<- | Hne].
    + destruct (decide (sender = sender)); [|done]. simpl. auto.
    + destruct (decide (p = sender)) as [->|_]; [done|]. auto.
Qed.

End Accrual.

(** ** Successful purchases and draws *)

Section Progress.
Variable E : Env.

Lemma buyTicket_inv sender value fc sc ip w u w' :
  buyTicket E sender value fc sc ip w = Ok (u, w') →
  ∃ v1 v2, value = TICKET_PRICE ∧
           hasTicket (getPlayer w sender) = false ∧
           verifyInput E sender fc ip = Some v1 ∧
           verifyInput E sender sc ip = Some v2 ∧
           totalTickets w + 1 < UINT256_MOD ∧
           w' = boughtWorld E sender fc sc v1 v2 w.
Proof.
  rewrite buyTicket_cases.
  destruct (Z.eqb_spec value TICKET_PRICE) as [->|Hne]; cbn [negb]; [|done].
  destruct (hasTicket (getPlayer w sender)); [done|].
  destruct (verifyInput E sender fc ip) as [v1|]; [|done].
  destruct (verifyInput E sender sc ip) as [v2|]; [|done].
  destruct (Z.ltb_spec (totalTickets w + 1) UINT256_MOD); [|done].
  intros [= <-]. exists v1, v2. auto 10.
Qed.

Lemma step_buyTicket sender value fc sc ip w u w' :
  buyTicket E sender value fc sc ip w = Ok (u, w') →
  step E (sender, BuyTicket value fc sc ip) w = w' ∧
  succeeds E (sender, BuyTicket value fc sc ip) w = true.
Proof.
  intros H. unfold step, succeeds. cbn [fst snd exec]. unfold bind.
  now rewrite H.
Qed.

Lemma step_buy_ok sender fc sc ip v1 v2 w :
  hasTicket (getPlayer w sender) = false →
  verifyInput E sender fc ip = Some v1 →
  verifyInput E sender sc ip = Some v2 →
  totalTickets w + 1 < UINT256_MOD →
  step E (sender, BuyTicket TICKET_PRICE fc sc ip) w
  = boughtWorld E sender fc sc v1 v2 w ∧
  succeeds E (sender, BuyTicket TICKET_PRICE fc sc ip) w = true.
Proof.
  intros Ht H1 H2 Hn. eapply step_buyTicket with (u := tt).
  rewrite buyTicket_cases, Ht, H1, H2. cbn [negb Z.eqb].
  rewrite Z.eqb_refl. cbn [negb].
  destruct (Z.ltb_spec (totalTickets w + 1) UINT256_MOD); [done | lia].
Qed.

Lemma step_draw_ok sender w :
  Inv E w →
  hasTicket (getPlayer w sender) = true →
  totalDraws w + 1 < UINT256_MOD →
  ∃ st', drawnStore E sender (getPlayer w sender) (fhe w) st' ∧
         step E (sender, StartDraw) w = drawnWorld sender st' w ∧
         succeeds E (sender, StartDraw) w = true.
Proof.
  intros (Hwf & Hlt & _) Ht Hn.
  assert (Hb : ∀ h, h ∈ handlesOf (getPlayer w sender) →
                    (rank h ≤ nextHandle (fhe w))%N) by (intros h; apply Hlt).
  setoid_rewrite elem_of_handlesOf in Hb.
  destruct (startDraw_spec E sender w Ht) as (st' & Hst & Hrun);
    [apply Hb; auto 6 .. |].
  exists st'. split; [exact Hst|].
  unfold step, succeeds. cbn [fst snd exec]. unfold bind. rewrite Hrun.
  destruct (Z.ltb_spec (totalDraws w + 1) UINT256_MOD); [done | lia].
Qed.

Lemma hasPoints_run p txs w :
  Inv E w → hasPoints (getPlayer w p) = true →
  hasPoints (getPlayer (run E txs w) p) = true.
Proof.
  revert w. induction txs as [|tx txs IH]; intros w HI Hp; simpl; [done|].
  apply IH; [now apply Inv_step|].
  now apply (flags_outcome E p tx _ w _ (step_outcome E tx w HI)).
Qed.

Lemma hasResult_run p txs w :
  Inv E w → hasResult (getPlayer w p) = false → drawsOf E p txs w = O →
  hasResult (getPlayer (run E txs w) p) = false.
Proof.
  revert w. induction txs as [|tx txs IH]; intros w HI Hr Hd; simpl; [done|].
  cbn [drawsOf] in Hd.
  destruct (isDrawBy p tx && succeeds E tx w) eqn:Hdraw; [discriminate|].
  apply IH; [now apply Inv_step | | exact Hd].
  destruct (flags_outcome E p tx _ w _ (step_outcome E tx w HI)) as (_ & -> & _).
  rewrite Hdraw, Hr. now destruct (isBuyBy p tx && succeeds E tx w).
Qed.

Lemma hasTicket_run p txs w :
  Inv E w → Forall (λ tx, isDrawBy p tx = false) txs →
  hasTicket (getPlayer w p) = true →
  hasTicket (getPlayer (run E txs w) p) = true.
Proof.
  intros HI Hall. revert w HI.
  induction Hall as [|tx txs Hnd _ IH]; intros w HI Ht; simpl; [done|].
  apply IH; [now apply Inv_step|].
  destruct (flags_outcome E p tx _ w _ (step_outcome E tx w HI)) as (_ & _ & ->).
  rewrite Hnd, Ht. cbn [andb]. now destruct (isBuyBy p tx && succeeds E tx w).
Qed.

End Progress.

(** ** Rounds of the sample trace *)

Section SampleRounds.

Lemma sumZ_replicate k v : sumZ (replicate k v) = v * Z.of_nat k.
Proof.
  unfold sumZ. induction k as [|k IH]; [simpl; lia|].
  cbn [replicate foldr]. rewrite IH. lia.
Qed.

Lemma aliceRound_from w :
  Inv E0 w →
  hasTicket (getPlayer w alice) = false →
  totalTickets w + 1 < UINT256_MOD →
  totalDraws w + 1 < UINT256_MOD →
  Inv E0 (run E0 aliceRound w) ∧
  hasTicket (getPlayer (run E0 aliceRound w) alice) = false ∧
  totalTickets (run E0 aliceRound w) = totalTickets w + 1 ∧
  totalDraws (run E0 aliceRound w) = totalDraws w + 1 ∧
  rewardsOf E0 alice aliceRound w = [1000].
Proof.
  intros HI Ht Hnt Hnd.
  destruct (step_buy_ok E0 alice 1%N 1%N [] 1 1 w Ht eq_refl eq_refl Hnt)
    as (Hs1 & Hok1).
  fold buyOnes in Hs1, Hok1.
  set (w1 := boughtWorld E0 alice 1 1 1 1 w) in *.
  assert (HI1 : Inv E0 w1) by now apply Inv_boughtWorld with (ip := []).
  assert (Hp1 : getPlayer w1 alice
                = mkPlayer (Imported 1) (Imported 1)
                    (encryptedPoints (getPlayer w alice))
                    (lastWinningFirst (getPlayer w alice))
                    (lastWinningSecond (getPlayer w alice))
                    true false (hasPoints (getPlayer w alice))).
  { unfold w1. rewrite getPlayer_boughtWorld.
    now destruct (decide (alice = alice)). }
  assert (Ht1 : hasTicket (getPlayer w1 alice) = true) by now rewrite Hp1.
  destruct (step_draw_ok E0 alice w1 HI1 Ht1 Hnd) as (st' & Hst & Hs2 & Hok2).
  unfold aliceRound. cbn [run rewardsOf]. rewrite Hs1, Hs2, Hok2.
  split; [now apply Inv_drawnWorld|].
  split; [rewrite getPlayer_drawnWorld; now destruct (decide (alice = alice))|].
  split; [reflexivity|]. split; [reflexivity|].
  cbn [isDrawBy fst snd buyOnes andb app].
  replace (isDrawBy alice (alice, buyOnes)) with false by reflexivity.
  replace (isDrawBy alice (alice, StartDraw)) with true by reflexivity.
  cbn [andb app]. f_equal.
  unfold drawReward. rewrite getPlayer_drawnWorld.
  destruct (decide (alice = alice)); [|done].
  cbn [lastWinningFirst lastWinningSecond fhe drawnWorld].
  destruct Hst as (_ & _ & _ & _ & -> & -> & _).
  rewrite Hp1. cbn [firstGuess secondGuess].
  destruct (decrypt_boughtWorld_guesses E0 alice 1 1 [] 1 1 w eq_refl eq_refl)
    as (_ & Hg).
  fold w1 in Hg. rewrite Hg. reflexivity.
Qed.

Lemma rounds_state k :
  Z.of_nat k < UINT256_MOD →
  Inv E0 (run E0 (rounds k) w0) ∧
  hasTicket (getPlayer (run E0 (rounds k) w0) alice) = false ∧
  totalTickets (run E0 (rounds k) w0) = Z.of_nat k ∧
  totalDraws (run E0 (rounds k) w0) = Z.of_nat k ∧
  rewardsOf E0 alice (rounds k) w0 = replicate k 1000.
Proof.
  induction k as [|k IH]; intros Hk.
  - split; [apply Inv_deploy|]. auto.
  - destruct IH as (HI & Ht & Hnt & Hnd & Hr); [lia|].
    cbn [rounds]. rewrite run_app, rewardsOf_app.
    destruct (aliceRound_from _ HI Ht) as (HI' & Ht' & Hnt' & Hnd' & Hr');
      [lia | lia |].
    split; [exact HI'|]. split; [exact Ht'|].
    split; [lia|]. split; [lia|].
    rewrite Hr, Hr'. clear.
    induction k as [|k IH]; [reflexivity|].
    cbn [replicate app]. now rewrite IH.
Qed.

Lemma rounds_points k :
  Z.of_nat k < UINT256_MOD →
  pointsOf (run E0 (rounds k) w0) alice = wrap32 (1000 * Z.of_nat k).
Proof.
  intros Hk. destruct (rounds_state k Hk) as (_ & _ & _ & _ & Hr).
  rewrite (points_run E0 alice (rounds k) w0 (Inv_deploy E0 deployer)).
  rewrite Hr, sumZ_replicate. change (pointsOf w0 alice) with 0.
  now rewrite Z.add_0_l.
Qed.

Lemma lastFit_value : Z.of_nat lastFit = 4294967.
Proof. unfold lastFit. now rewrite N_nat_Z. Qed.

Lemma afterRound_reachable : reachable E0 afterRound.
Proof. apply reachable_trace. Qed.

(** A contract that holds 7 wei without having sold a ticket reports
    them. *)
Lemma stats_after_credit :
  reachable E0 (credit 7 w0) ∧ stats (credit 7 w0) = (0, 0, 7).
Proof. split; [apply reach_credit, reach_deploy | reflexivity]. Qed.

Lemma afterSecondBuy_reachable : reachable E0 afterSecondBuy.
Proof. apply reach_step, afterRound_reachable. Qed.

End SampleRounds.

(** * Properties of the specification *)

(** ** Reward engine and draw engine *)

(** C1 (reward correctness).  For guess ciphertexts and winning ciphertexts
    of a well-formed store whose plaintexts lie in [1,9], [_calculateReward]
    returns a ciphertext whose plaintext is 1000 exactly when both
    coordinates match, 100 exactly when one of the two matches and 0
    exactly when none does; it is never a value outside {0, 100, 1000}.
    (The range of the digits plays no role: [calculateReward_spec] gives the
    same tiers for all 32-bit plaintexts.) *)
Theorem calculateReward_three_tiers st hg1 hg2 hw1 hw2 g1 g2 w1 w2 :
  wfStore st →
  plain st !! hg1 = Some g1 → plain st !! hg2 = Some g2 →
  plain st !! hw1 = Some w1 → plain st !! hw2 = Some w2 →
  1 ≤ g1 ≤ 9 → 1 ≤ g2 ≤ 9 → 1 ≤ w1 ≤ 9 → 1 ≤ w2 ≤ 9 →
  ∃ r st',
    _calculateReward hg1 hg2 hw1 hw2 st = Ok (r, st') ∧
    (decrypt st' r = 1000 ↔ g1 = w1 ∧ g2 = w2) ∧
    (decrypt st' r = 100 ↔ (g1 = w1 ∧ g2 ≠ w2) ∨ (g1 ≠ w1 ∧ g2 = w2)) ∧
    (decrypt st' r = 0 ↔ g1 ≠ w1 ∧ g2 ≠ w2) ∧
    (decrypt st' r = 0 ∨ decrypt st' r = 100 ∨ decrypt st' r = 1000).
Proof.
  intros Hwf H1 H2 H3 H4 _ _ _ _.
  pose proof Hwf as (_ & Hplain & _).
  assert (Hb : ∀ h v, plain st !! h = Some v → (rank h ≤ nextHandle st)%N).
  { intros h v Hh. now apply Hplain in Hh. }
  destruct (calculateReward_spec hg1 hg2 hw1 hw2 st) as (st' & Hrun & _ & _ & Hd);
    try (eapply Hb; eassumption).
  exists (Computed (nextHandle st + 17)), st'. split; [exact Hrun|].
  rewrite Hd. unfold decrypt. rewrite H1, H2, H3, H4. simpl.
  unfold rewardTier.
  destruct (Z.eqb_spec g1 w1), (Z.eqb_spec g2 w2); simpl;
    repeat split; intros; try lia; auto.
Qed.

Lemma calculateReward_three_tiers_witness :
  ∃ r st',
    _calculateReward (Computed 1) (Computed 2) (Computed 3) (Computed 4)
                     sampleStore = Ok (r, st') ∧
    (decrypt st' r = 1000 ↔ 2 = 2 ∧ 5 = 8) ∧
    (decrypt st' r = 100 ↔ (2 = 2 ∧ 5 ≠ 8) ∨ (2 ≠ 2 ∧ 5 = 8)) ∧
    (decrypt st' r = 0 ↔ 2 ≠ 2 ∧ 5 ≠ 8) ∧
    (decrypt st' r = 0 ∨ decrypt st' r = 100 ∨ decrypt st' r = 1000).
Proof.
  apply (calculateReward_three_tiers sampleStore
           (Computed 1) (Computed 2) (Computed 3) (Computed 4) 2 5 2 8);
    try reflexivity; try lia.
  unfold sampleStore. repeat apply wfStore_alloc. apply wfStore_deploy.
Defined.

(** C3 (bounded draw).  Whatever the random source returns, the digit
    generator returns a ciphertext whose plaintext is the remainder modulo 9
    of the (32-bit) random value plus one, and so lies in [1,9]. *)
Theorem randomTicketNumber_in_range (E : Env) (st : FHEState) :
  ∃ h st',
    _randomTicketNumber E st = Ok (h, st') ∧
    decrypt st' h = wrap32 (randSource E (randCounter st)) mod 9 + 1 ∧
    1 ≤ decrypt st' h ≤ 9.
Proof.
  destruct (randomTicketNumber_spec E st) as (st' & Hrun & _ & _ & Hd).
  exists (Computed (nextHandle st + 3)), st'. split; [exact Hrun|].
  rewrite Hd. unfold digitOf. split; [reflexivity|].
  pose proof (Z.mod_pos_bound (wrap32 (randSource E (randCounter st))) 9).
  lia.
Qed.

(** ** Purchase *)

(** C6 (price gate).  A [buyTicket] whose payment differs from
    [TICKET_PRICE] reverts with the InvalidPayment reason, and the
    transaction leaves the world, hence the caller's record with its five
    ciphertext fields and three flags, exactly as it was. *)
Theorem buyTicket_price_gate (E : Env) sender value fc sc ip w :
  value ≠ TICKET_PRICE →
  buyTicket E sender value fc sc ip w = Revert InvalidPayment ∧
  step E (sender, BuyTicket value fc sc ip) w = w ∧
  getPlayer (step E (sender, BuyTicket value fc sc ip) w) sender
  = getPlayer w sender.
Proof.
  intros Hne.
  assert (Hrun : buyTicket E sender value fc sc ip w = Revert InvalidPayment).
  { rewrite buyTicket_cases.
    now destruct (Z.eqb_spec value TICKET_PRICE). }
  assert (Hstep : step E (sender, BuyTicket value fc sc ip) w = w).
  { unfold step. cbn [fst snd exec]. unfold bind. now rewrite Hrun. }
  now rewrite Hstep.
Qed.

Lemma buyTicket_price_gate_witness :
  buyTicket E0 alice 5 1 1 [] afterRound = Revert InvalidPayment ∧
  step E0 (alice, BuyTicket 5 1 1 []) afterRound = afterRound ∧
  getPlayer (step E0 (alice, BuyTicket 5 1 1 []) afterRound) alice
  = getPlayer afterRound alice.
Proof.
  apply (buyTicket_price_gate E0 alice 5 1%N 1%N [] afterRound).
  unfold TICKET_PRICE. lia.
Defined.

(** C10 (frame of a purchase).  A successful [buyTicket] leaves
    [encryptedPoints], [hasPoints], [lastWinningFirst] and
    [lastWinningSecond] of the caller's record as they were; of the
    contract's storage it changes only [firstGuess], [secondGuess],
    [hasTicket] and [hasResult] of that record and the ticket counter: every
    other record, the draw counter and the owner are unchanged.  In a
    reachable world the plaintexts behind the kept ciphertexts are unchanged
    too. *)
Theorem buyTicket_frame (E : Env) sender value fc sc ip w w' :
  buyTicket E sender value fc sc ip w = Ok (tt, w') →
  encryptedPoints (getPlayer w' sender) = encryptedPoints (getPlayer w sender) ∧
  hasPoints (getPlayer w' sender) = hasPoints (getPlayer w sender) ∧
  lastWinningFirst (getPlayer w' sender) = lastWinningFirst (getPlayer w sender) ∧
  lastWinningSecond (getPlayer w' sender) = lastWinningSecond (getPlayer w sender) ∧
  hasTicket (getPlayer w' sender) = true ∧
  hasResult (getPlayer w' sender) = false ∧
  totalTickets w' = totalTickets w + 1 ∧
  (∀ q, q ≠ sender → getPlayer w' q = getPlayer w q) ∧
  totalDraws w' = totalDraws w ∧
  owner w' = owner w ∧
  (reachable E w →
   pointsOf w' sender = pointsOf w sender ∧
   decrypt (fhe w') (lastWinningFirst (getPlayer w' sender))
   = decrypt (fhe w) (lastWinningFirst (getPlayer w sender)) ∧
   decrypt (fhe w') (lastWinningSecond (getPlayer w' sender))
   = decrypt (fhe w) (lastWinningSecond (getPlayer w sender))).
Proof.
  intros Hrun.
  destruct (buyTicket_inv E _ _ _ _ _ _ _ _ Hrun) as (v1 & v2 & _ & _ & _ & _ & _ & ->).
  assert (Hp : getPlayer (boughtWorld E sender fc sc v1 v2 w) sender
               = mkPlayer (Imported fc) (Imported sc)
                   (encryptedPoints (getPlayer w sender))
                   (lastWinningFirst (getPlayer w sender))
                   (lastWinningSecond (getPlayer w sender))
                   true false (hasPoints (getPlayer w sender))).
  { rewrite getPlayer_boughtWorld. now destruct (decide (sender = sender)). }
  unfold pointsOf. rewrite Hp.
  cbn [encryptedPoints hasPoints lastWinningFirst lastWinningSecond
       hasTicket hasResult].
  do 7 (split; [reflexivity|]).
  split.
  { intros q Hq. rewrite getPlayer_boughtWorld.
    now destruct (decide (q = sender)). }
  do 2 (split; [reflexivity|]).
  intros Hreach. apply Inv_reachable in Hreach.
  destruct Hreach as (_ & _ & _ & _ & Hcomp & _).
  assert (Hkept : ∀ h, h ∈ computedFields (getPlayer w sender) →
            decrypt (fhe (boughtWorld E sender fc sc v1 v2 w)) h
            = decrypt (fhe w) h).
  { intros h Hin. destruct (Hcomp sender h Hin) as (k & ->).
    apply decrypt_boughtWorld. }
  rewrite !Hkept by (rewrite elem_of_computedFields; auto). done.
Qed.

Lemma secondBuy_run :
  buyTicket E0 alice TICKET_PRICE 1 3 [] afterRound = Ok (tt, afterSecondBuy).
Proof. vm_compute. reflexivity. Qed.

Lemma buyTicket_frame_witness :
  encryptedPoints (getPlayer afterSecondBuy alice)
  = encryptedPoints (getPlayer afterRound alice) ∧
  hasPoints (getPlayer afterSecondBuy alice)
  = hasPoints (getPlayer afterRound alice) ∧
  pointsOf afterSecondBuy alice = pointsOf afterRound alice.
Proof.
  destruct (buyTicket_frame E0 alice TICKET_PRICE 1%N 3%N [] afterRound
              afterSecondBuy secondBuy_run)
    as (Hp & Hf & _ & _ & _ & _ & _ & _ & _ & _ & Hr).
  split; [exact Hp|]. split; [exact Hf|].
  destruct (Hr afterRound_reachable) as (H & _). exact H.
Defined.

(** C7 (single ticket).  After a successful [buyTicket] of a player, and
    as long as no [startDraw] of that player intervenes, the player's ticket
    stays active and every further [buyTicket] of that player that pays the
    ticket price fails with the TicketAlreadyActive reason.  (A further
    [buyTicket] with any other payment fails as well, on the price check
    that C6 describes.) *)
Theorem single_active_ticket (E : Env) p value fc sc ip w w1 txs fc' sc' ip' :
  reachable E w →
  buyTicket E p value fc sc ip w = Ok (tt, w1) →
  Forall (λ tx, isDrawBy p tx = false) txs →
  hasTicket (getPlayer (run E txs w1) p) = true ∧
  buyTicket E p TICKET_PRICE fc' sc' ip' (run E txs w1)
  = Revert TicketAlreadyActive ∧
  (∀ value', value' ≠ TICKET_PRICE →
     buyTicket E p value' fc' sc' ip' (run E txs w1) = Revert InvalidPayment).
Proof.
  intros Hreach Hbuy Hall.
  destruct (step_buyTicket E _ _ _ _ _ _ _ _ Hbuy) as (Hstep & Hok).
  assert (HI : Inv E w) by now apply Inv_reachable.
  assert (HI1 : Inv E w1) by (rewrite <- Hstep; now apply Inv_step).
  assert (Ht1 : hasTicket (getPlayer w1 p) = true).
  { rewrite <- Hstep.
    destruct (flags_outcome E p _ _ w _ (step_outcome E (p, BuyTicket value fc sc ip) w HI))
      as (_ & _ & ->).
    rewrite Hok. unfold isBuyBy. cbn [fst snd].
    now destruct (bool_decide_reflect (p = p)). }
  pose proof (hasTicket_run E p txs w1 HI1 Hall Ht1) as Ht.
  split; [exact Ht|]. split.
  - rewrite buyTicket_cases, Ht, Z.eqb_refl. reflexivity.
  - intros value' Hne. rewrite buyTicket_cases.
    now destruct (Z.eqb_spec value' TICKET_PRICE).
Qed.

Lemma firstBuy_run :
  buyTicket E0 alice TICKET_PRICE 1 1 [] w0 = Ok (tt, afterFirstBuy).
Proof. vm_compute. reflexivity. Qed.

Lemma single_active_ticket_witness :
  hasTicket (getPlayer (run E0 othersPlay afterFirstBuy) alice) = true ∧
  buyTicket E0 alice TICKET_PRICE 2 3 [] (run E0 othersPlay afterFirstBuy)
  = Revert TicketAlreadyActive ∧
  (∀ value', value' ≠ TICKET_PRICE →
     buyTicket E0 alice value' 2 3 [] (run E0 othersPlay afterFirstBuy)
     = Revert InvalidPayment).
Proof.
  apply (single_active_ticket E0 alice TICKET_PRICE 1%N 1%N [] w0 afterFirstBuy
           othersPlay 2%N 3%N []).
  - apply reach_deploy.
  - exact firstBuy_run.
  - unfold othersPlay. repeat constructor.
Defined.

(** ** Draws *)

(** C2 (flags), as the contract has it.  In every reachable world,
    [hasPoints] of a record, once true, stays true along every sequence of
    transactions.  [hasResult], once true, stays true across every
    transaction other than a successful [buyTicket] of that player; such a
    purchase sets it back to [false] (line 57 of the contract); from then
    on it stays [false] along every sequence of transactions without a
    successful [startDraw] of that player, and the player's next successful
    [startDraw] sets it to [true] again. *)
Theorem flags_persistence (E : Env) w p :
  reachable E w →
  (∀ txs, hasPoints (getPlayer w p) = true →
          hasPoints (getPlayer (run E txs w) p) = true) ∧
  (∀ tx, hasResult (getPlayer w p) = true →
         isBuyBy p tx && succeeds E tx w = false →
         hasResult (getPlayer (step E tx w) p) = true) ∧
  (∀ tx, isBuyBy p tx && succeeds E tx w = true →
         hasResult (getPlayer (step E tx w) p) = false) ∧
  (∀ txs, hasResult (getPlayer w p) = false →
          drawsOf E p txs w = O →
          hasResult (getPlayer (run E txs w) p) = false) ∧
  (∀ tx, isDrawBy p tx && succeeds E tx w = true →
         hasResult (getPlayer (step E tx w) p) = true).
Proof.
  intros Hreach. apply Inv_reachable in Hreach.
  split; [intros txs; now apply hasPoints_run|].
  split; [|split; [|split]].
  - intros tx Hr Hnb.
    destruct (flags_outcome E p tx _ w _ (step_outcome E tx w Hreach))
      as (_ & -> & _).
    rewrite Hnb, Hr. now destruct (isDrawBy p tx && succeeds E tx w).
  - intros tx Hb.
    destruct (flags_outcome E p tx _ w _ (step_outcome E tx w Hreach))
      as (_ & -> & _).
    now rewrite Hb.
  - intros txs. now apply hasResult_run.
  - intros tx Hd.
    destruct (flags_outcome E p tx _ w _ (step_outcome E tx w Hreach))
      as (_ & -> & _).
    rewrite Hd. destruct (isBuyBy p tx && succeeds E tx w) eqn:Hb; [|done].
    exfalso. unfold isBuyBy, isDrawBy in *. destruct tx as [s []]; simpl in *;
      rewrite ?andb_false_r in *; discriminate.
Qed.

Lemma flags_persistence_witness :
  hasPoints (getPlayer (run E0 ((alice, secondBuy) :: othersPlay) afterRound) alice)
  = true ∧
  hasResult (getPlayer (step E0 (bob, buyOnes) afterRound) alice) = true ∧
  hasResult (getPlayer (step E0 (alice, secondBuy) afterRound) alice) = false ∧
  hasResult (getPlayer (run E0 othersPlay afterSecondBuy) alice) = false ∧
  hasResult (getPlayer (step E0 (alice, StartDraw) afterSecondBuy) alice) = true.
Proof.
  destruct (flags_persistence E0 afterRound alice afterRound_reachable)
    as (H1 & H2 & H3 & _ & _).
  destruct (flags_persistence E0 afterSecondBuy alice afterSecondBuy_reachable)
    as (_ & _ & _ & H4 & H5).
  split; [apply H1; vm_compute; reflexivity|].
  split; [apply H2; vm_compute; reflexivity|].
  split; [apply H3; vm_compute; reflexivity|].
  split; [apply H4; vm_compute; reflexivity|].
  apply H5. vm_compute. reflexivity.
Defined.

(** [hasResult] goes back to [false] when the player buys the next ticket. *)
Lemma hasResult_reset_counterexample :
  reachable E0 afterRound ∧
  hasResult (getPlayer afterRound alice) = true ∧
  afterSecondBuy = step E0 (alice, secondBuy) afterRound ∧
  succeeds E0 (alice, secondBuy) afterRound = true ∧
  hasResult (getPlayer afterSecondBuy alice) = false.
Proof.
  split; [exact afterRound_reachable|].
  repeat split; vm_compute; reflexivity.
Qed.

(** What the accumulation computes: after any sequence of transactions from
    deployment, the plaintext of a player's [encryptedPoints] is the sum,
    on 32 bits, of the rewards of the player's successful draws, each of
    them 0, 100 or 1000. *)
Lemma points_accumulate (E : Env) deployer p txs :
  length (rewardsOf E p txs (deploy deployer)) = drawsOf E p txs (deploy deployer) ∧
  Forall (λ r, r = 0 ∨ r = 100 ∨ r = 1000) (rewardsOf E p txs (deploy deployer)) ∧
  pointsOf (run E txs (deploy deployer)) p
  = wrap32 (sumZ (rewardsOf E p txs (deploy deployer))).
Proof.
  pose proof (Inv_deploy E deployer) as HI.
  split; [apply rewardsOf_length|].
  split; [apply rewardsOf_values|].
  rewrite (points_run E p txs _ HI), pointsOf_deploy.
  now rewrite Z.add_0_l.
Qed.

Lemma rounds_S k : rounds (S k) = rounds k ++ aliceRound.
Proof. reflexivity. Qed.

(** C4 (accumulated points), the contract at the failing input.  Alice
    plays 4294968 rounds, each a ticket on the digits that the draw
    produces, so each of her 4294968 successful draws is rewarded 1000.  The
    claim gives her the sum, 4294968000 points, and no fewer points than
    after the round before.  The contract, which adds on 32 bits without an
    overflow check, gives her 704 points, down from the 4294967000 she had
    after the round before. *)
Theorem points_wrap_at_failing_input :
  drawsOf E0 alice (rounds lastFit ++ aliceRound) w0 = S lastFit ∧
  rewardsOf E0 alice (rounds lastFit ++ aliceRound) w0
  = replicate (S lastFit) 1000 ∧
  sumZ (rewardsOf E0 alice (rounds lastFit ++ aliceRound) w0) = 4294968000 ∧
  pointsOf (run E0 (rounds lastFit) w0) alice = 4294967000 ∧
  pointsOf (run E0 (rounds lastFit ++ aliceRound) w0) alice = 704.
Proof.
  pose proof lastFit_value as HL.
  assert (Hk : Z.of_nat (S lastFit) < UINT256_MOD).
  { rewrite Nat2Z.inj_succ, HL. reflexivity. }
  assert (Hk' : Z.of_nat lastFit < UINT256_MOD).
  { rewrite HL. reflexivity. }
  rewrite <- (rounds_S lastFit).
  destruct (rounds_state (S lastFit) Hk) as (_ & _ & _ & _ & Hr).
  split; [now rewrite <- rewardsOf_length, Hr, length_replicate|].
  split; [exact Hr|].
  split; [rewrite Hr, sumZ_replicate, Nat2Z.inj_succ, HL; reflexivity|].
  rewrite !rounds_points by assumption.
  rewrite Nat2Z.inj_succ, HL. split; reflexivity.
Qed.

(** ** Access control *)




(** The contract itself does not check whose input it imports.  Under
    [E0], whose verifier validates a client handle for whoever submits it,
    Bob buys a ticket with the client handle of Alice's ticket and is
    granted access to it. *)
Lemma replayed_handle_is_shared :
  reachable E0 afterSharedBuy ∧
  Imported 1 ∈ handlesOf (getPlayer afterSharedBuy alice) ∧
  Imported 1 ≠ zeroHandle ∧
  isAllowed (fhe afterSharedBuy) (Imported 1) bob ∧
  bob ≠ this E0 ∧ bob ≠ alice.
Proof.
  split; [apply reachable_trace|].
  split; [apply elem_of_handlesOf; left; vm_compute; reflexivity|].
  split; [discriminate|].
  split; [|split; vm_compute; discriminate].
  unfold isAllowed.
  assert (H : bool_decide ((Imported 1, bob) ∈ acl (fhe afterSharedBuy)) = true)
    by (vm_compute; reflexivity).
  now apply bool_decide_eq_true in H.
Qed.

(** ** Withdrawal *)

(** C8 (withdraw authorization), as the contract has it.  [withdraw] sent
    by anybody but the owner reverts with the NotOwner reason before any
    transfer is attempted, and the transaction leaves the world, hence the
    held balance, as it was.  Sent by the owner with a non-null recipient
    and an amount within the held balance, it passes its three checks and
    makes the transfer of the amount to the recipient; whatever the
    recipient's code does, [withdraw] succeeds exactly when the transfer
    reports success, and it then leaves the world as the transfer left it,
    so that the held balance is lower by exactly the amount after a transfer
    that did nothing but move the amount; when the transfer reports failure,
    as it does for a recipient that rejects the value and for the contract
    itself, [withdraw] reverts with the TransferFailed reason and the
    transaction leaves the world as it was. *)
Theorem withdraw_authorization (E : Env)
    (transfer : address → Z → M World bool) sender to amount w :
  (sender ≠ owner w →
   withdrawWith transfer sender to amount w = Revert NotOwner ∧
   withdraw E sender to amount w = Revert NotOwner ∧
   step E (sender, Withdraw to amount) w = w) ∧
  (sender = owner w → to ≠ 0%N → amount ≤ balance w →
   (∀ w', transfer to amount w = Ok (true, w') →
          withdrawWith transfer sender to amount w = Ok (tt, w')) ∧
   (∀ w', transfer to amount w = Ok (false, w') →
          withdrawWith transfer sender to amount w = Revert TransferFailed) ∧
   ((∃ w', withdrawWith transfer sender to amount w = Ok (tt, w')) ↔
    (∃ w', transfer to amount w = Ok (true, w'))) ∧
   (transfer to amount w = Ok (true, set_balance (balance w - amount) w) →
    ∃ w', withdrawWith transfer sender to amount w = Ok (tt, w') ∧
          balance w' = balance w - amount) ∧
   (to = this E ∨ recipientAccepts E to amount = false →
    withdraw E sender to amount w = Revert TransferFailed ∧
    step E (sender, Withdraw to amount) w = w)).
Proof.
  assert (Hrev : ∀ r, withdraw E sender to amount w = Revert r →
                      step E (sender, Withdraw to amount) w = w).
  { intros r Hr. unfold step. cbn [fst snd exec]. unfold bind. now rewrite Hr. }
  split.
  - intros Hne.
    assert (Hgen : ∀ t, withdrawWith t sender to amount w = Revert NotOwner).
    { intros t. rewrite withdrawWith_cases.
      now destruct (bool_decide_reflect (sender = owner w)). }
    split; [apply Hgen|]. split; [apply Hgen|]. exact (Hrev _ (Hgen _)).
  - intros Hown Hto Hamt.
    assert (Hgen : ∀ t, withdrawWith t sender to amount w
                        = match t to amount w with
                          | Ok (true, w') => Ok (tt, w')
                          | Ok (false, _) => Revert TransferFailed
                          | Revert r => Revert r
                          end).
    { intros t. rewrite withdrawWith_cases.
      destruct (bool_decide_reflect (sender = owner w)); [|done].
      destruct (bool_decide_reflect (to = 0%N)); [done|].
      destruct (Z.leb_spec amount (balance w)); [done | lia]. }
    split; [intros w' Ht; now rewrite Hgen, Ht|].
    split; [intros w' Ht; now rewrite Hgen, Ht|].
    split.
    { rewrite Hgen. destruct (transfer to amount w) as [[[|] w1]|r].
      - split; eauto.
      - split; [intros (w' & [=]) | intros (w' & [=])].
      - split; [intros (w' & [=]) | intros (w' & [=])]. }
    split.
    { intros Ht. rewrite Hgen, Ht. eexists. split; reflexivity. }
    intros Hrej.
    assert (Hrun : withdraw E sender to amount w = Revert TransferFailed).
    { unfold withdraw. rewrite Hgen. unfold call_value.
      destruct (bool_decide_reflect (to = this E)); [done|].
      destruct Hrej as [?| ->]; done. }
    split; [exact Hrun | exact (Hrev _ Hrun)].
Qed.

Lemma withdraw_authorization_witness :
  (withdrawWith (call_value E0) alice bob 5 afterRound = Revert NotOwner ∧
   withdraw E0 alice bob 5 afterRound = Revert NotOwner ∧
   step E0 (alice, Withdraw bob 5) afterRound = afterRound) ∧
  (∃ w', withdrawWith (call_value E0) deployer bob 5 afterRound = Ok (tt, w') ∧
         balance w' = balance afterRound - 5) ∧
  (withdraw E0 deployer 66 5 afterRound = Revert TransferFailed ∧
   step E0 (deployer, Withdraw 66 5) afterRound = afterRound).
Proof.
  pose proof (withdraw_authorization E0 (call_value E0) alice bob 5 afterRound)
    as (H1 & _).
  pose proof (withdraw_authorization E0 (call_value E0) deployer bob 5 afterRound)
    as (_ & H2).
  pose proof (withdraw_authorization E0 (call_value E0) deployer 66%N 5 afterRound)
    as (_ & H3).
  assert (Ho : deployer = owner afterRound) by (vm_compute; reflexivity).
  assert (Hb : 5 ≤ balance afterRound) by (vm_compute; discriminate).
  split; [apply H1; vm_compute; discriminate|].
  split.
  - destruct (H2 Ho) as (_ & _ & _ & Hquiet & _);
      [vm_compute; discriminate | exact Hb |].
    apply Hquiet. vm_compute. reflexivity.
  - destruct (H3 Ho) as (_ & _ & _ & _ & Hrej);
      [vm_compute; discriminate | exact Hb |].
    apply Hrej. right. vm_compute. reflexivity.
Defined.

(** The owner withdraws an amount within the balance to a non-null
    recipient that rejects the transfer (account 66 of [E0], or the contract
    itself): the call reverts. *)
Lemma withdraw_rejected_counterexample :
  deployer = owner afterRound ∧
  (66 : address) ≠ 0%N ∧ this E0 ≠ 0%N ∧
  5 ≤ balance afterRound ∧
  withdraw E0 deployer 66 5 afterRound = Revert TransferFailed ∧
  withdraw E0 deployer (this E0) 5 afterRound = Revert TransferFailed ∧
  ¬ (∃ w', withdraw E0 deployer 66 5 afterRound = Ok (tt, w')).
Proof.
  assert (H : withdraw E0 deployer 66 5 afterRound = Revert TransferFailed)
    by (vm_compute; reflexivity).
  split; [vm_compute; reflexivity|]. split; [vm_compute; discriminate|].
  split; [vm_compute; discriminate|].
  split; [vm_compute; discriminate|]. split; [exact H|].
  split; [vm_compute; reflexivity|].
  intros (w' & Hw). rewrite H in Hw. discriminate.
Qed.

(** ** Queries *)

(** C9 (public reads).  Each of the four queries returns, for whoever
    asks, the ciphertext handles and flags stored in the queried record and
    nothing else, gives two requesters the same answer, and leaves the world
    as it was. *)
Theorem views_requester_independent (E : Env) (r1 r2 user : address) (w : World) :
  (exec E r1 (GetTicket user) w
   = Ok (RTicket (firstGuess (getPlayer w user)) (secondGuess (getPlayer w user))
                 (hasTicket (getPlayer w user)), w) ∧
   exec E r2 (GetTicket user) w = exec E r1 (GetTicket user) w) ∧
  (exec E r1 (GetLastWinningNumbers user) w
   = Ok (RWinning (lastWinningFirst (getPlayer w user))
                  (lastWinningSecond (getPlayer w user))
                  (hasResult (getPlayer w user)), w) ∧
   exec E r2 (GetLastWinningNumbers user) w
   = exec E r1 (GetLastWinningNumbers user) w) ∧
  (exec E r1 (GetEncryptedPoints user) w
   = Ok (RPoints (encryptedPoints (getPlayer w user))
                 (hasPoints (getPlayer w user)), w) ∧
   exec E r2 (GetEncryptedPoints user) w
   = exec E r1 (GetEncryptedPoints user) w) ∧
  (exec E r1 (GetPlayerStatus user) w
   = Ok (RStatus (hasTicket (getPlayer w user)) (hasResult (getPlayer w user))
                 (hasPoints (getPlayer w user)), w) ∧
   exec E r2 (GetPlayerStatus user) w = exec E r1 (GetPlayerStatus user) w).
Proof. repeat split. Qed.

(** * Further properties of the contract *)

(** ** What one transaction leaves alone *)

Section Frames.
Variable E : Env.

Lemma digitOf_range raw : 1 ≤ digitOf raw ≤ 9.
Proof.
  unfold digitOf. pose proof (Z.mod_pos_bound (wrap32 raw) 9). lia.
Qed.

Lemma outcome_other_player p tx ok w w' :
  Outcome E w tx ok w' → tx.1 ≠ p → getPlayer w' p = getPlayer w p.
Proof.
  intros Hout Hne.
  destruct Hout as [sender c ok Hok | to amount | sender fc sc ip v1 v2 Ht H1 H2
                   | sender st' Ht Hst]; cbn [fst] in Hne; try reflexivity.
  - rewrite getPlayer_boughtWorld. destruct (decide (p = sender)); congruence.
  - rewrite getPlayer_drawnWorld. destruct (decide (p = sender)); congruence.
Qed.

(** A transaction leaves the plaintext of every computed ciphertext in use
    as it was. *)
Lemma outcome_decrypt tx ok w w' k :
  Outcome E w tx ok w' → (k < nextHandle (fhe w))%N →
  decrypt (fhe w') (Computed k) = decrypt (fhe w) (Computed k).
Proof.
  intros Hout Hk.
  destruct Hout as [sender c ok Hok | to amount | sender fc sc ip v1 v2 Ht H1 H2
                   | sender st' Ht Hst]; try reflexivity.
  - apply decrypt_boughtWorld.
  - cbn [fhe drawnWorld]. eapply decrypt_drawnStore; [exact Hst|].
    cbn [rank]. lia.
Qed.

Lemma outcome_owner tx ok w w' : Outcome E w tx ok w' → owner w' = owner w.
Proof. now destruct 1. Qed.

Lemma owner_run deployer txs : owner (run E txs (deploy deployer)) = deployer.
Proof.
  assert (H : ∀ w, Inv E w → owner (run E txs w) = owner w).
  { induction txs as [|tx txs IH]; intros w HI; simpl; [done|].
    rewrite (IH _ (Inv_step E tx w HI)).
    exact (outcome_owner _ _ _ _ (step_outcome E tx w HI)). }
  now rewrite (H _ (Inv_deploy E deployer)).
Qed.

End Frames.

(** X1.  [startDraw] of a player without an active ticket reverts with the
    "No active ticket" reason, in any world, and the transaction changes
    nothing. *)
Theorem startDraw_requires_ticket (E : Env) sender w :
  hasTicket (getPlayer w sender) = false →
  startDraw E sender w = Revert NoActiveTicket ∧
  step E (sender, StartDraw) w = w.
Proof.
  intros Ht. pose proof (startDraw_noTicket E sender w Ht) as Hrun.
  split; [exact Hrun|].
  unfold step. cbn [fst snd exec]. unfold bind. now rewrite Hrun.
Qed.

Lemma startDraw_requires_ticket_witness :
  startDraw E0 bob afterRound = Revert NoActiveTicket ∧
  step E0 (bob, StartDraw) afterRound = afterRound.
Proof.
  apply (startDraw_requires_ticket E0 bob afterRound). vm_compute. reflexivity.
Defined.

(** X2.  In a reachable world a player with an active ticket can always
    draw (short of the draw counter overflowing 256 bits).  The draw
    consumes the ticket, records a result and points, keeps the guess
    ciphertexts, stores two winning digits in [1,9], adds one to the draw
    counter, appends a [DrawCompleted] event, and leaves the ticket counter,
    the held balance, the owner and every other record as they were. *)
Theorem startDraw_succeeds (E : Env) sender w :
  reachable E w →
  hasTicket (getPlayer w sender) = true →
  totalDraws w + 1 < UINT256_MOD →
  ∃ w', startDraw E sender w = Ok (tt, w') ∧
    hasTicket (getPlayer w' sender) = false ∧
    hasResult (getPlayer w' sender) = true ∧
    hasPoints (getPlayer w' sender) = true ∧
    firstGuess (getPlayer w' sender) = firstGuess (getPlayer w sender) ∧
    secondGuess (getPlayer w' sender) = secondGuess (getPlayer w sender) ∧
    1 ≤ decrypt (fhe w') (lastWinningFirst (getPlayer w' sender)) ≤ 9 ∧
    1 ≤ decrypt (fhe w') (lastWinningSecond (getPlayer w' sender)) ≤ 9 ∧
    totalDraws w' = totalDraws w + 1 ∧
    totalTickets w' = totalTickets w ∧
    balance w' = balance w ∧
    owner w' = owner w ∧
    events w' = events w ++ [DrawCompleted sender] ∧
    (∀ q, q ≠ sender → getPlayer w' q = getPlayer w q).
Proof.
  intros Hreach Ht Hn. apply Inv_reachable in Hreach.
  destruct Hreach as (Hwf & Hlt & _).
  assert (Hb : ∀ h, h ∈ handlesOf (getPlayer w sender) →
                    (rank h ≤ nextHandle (fhe w))%N) by (intros h; apply Hlt).
  setoid_rewrite elem_of_handlesOf in Hb.
  destruct (startDraw_spec E sender w Ht) as (st' & Hst & Hrun);
    [apply Hb; auto 6 .. |].
  destruct (Z.ltb_spec (totalDraws w + 1) UINT256_MOD); [|lia].
  exists (drawnWorld sender st' w). split; [exact Hrun|].
  rewrite getPlayer_drawnWorld.
  destruct (decide (sender = sender)) as [_|]; [|done].
  cbn [hasTicket hasResult hasPoints firstGuess secondGuess
       lastWinningFirst lastWinningSecond].
  do 5 (split; [reflexivity|]).
  destruct Hst as (_ & _ & _ & _ & Hd1 & Hd2 & _).
  cbn [fhe drawnWorld]. rewrite Hd1, Hd2.
  split; [apply digitOf_range|]. split; [apply digitOf_range|].
  do 5 (split; [reflexivity|]).
  intros q Hq. rewrite getPlayer_drawnWorld. now destruct (decide (q = sender)).
Qed.

Lemma startDraw_succeeds_witness :
  ∃ w', startDraw E0 alice afterSecondBuy = Ok (tt, w') ∧
    hasTicket (getPlayer w' alice) = false ∧
    hasResult (getPlayer w' alice) = true ∧
    hasPoints (getPlayer w' alice) = true ∧
    firstGuess (getPlayer w' alice) = firstGuess (getPlayer afterSecondBuy alice) ∧
    secondGuess (getPlayer w' alice) = secondGuess (getPlayer afterSecondBuy alice) ∧
    1 ≤ decrypt (fhe w') (lastWinningFirst (getPlayer w' alice)) ≤ 9 ∧
    1 ≤ decrypt (fhe w') (lastWinningSecond (getPlayer w' alice)) ≤ 9 ∧
    totalDraws w' = totalDraws afterSecondBuy + 1 ∧
    totalTickets w' = totalTickets afterSecondBuy ∧
    balance w' = balance afterSecondBuy ∧
    owner w' = owner afterSecondBuy ∧
    events w' = events afterSecondBuy ++ [DrawCompleted alice] ∧
    (∀ q, q ≠ alice → getPlayer w' q = getPlayer afterSecondBuy q).
Proof.
  apply (startDraw_succeeds E0 alice afterSecondBuy).
  - exact afterSecondBuy_reachable.
  - vm_compute. reflexivity.
  - vm_compute. reflexivity.
Defined.

(** X3.  A [buyTicket] that pays exactly [TICKET_PRICE], from a player
    without an active ticket, with two inputs that validate, succeeds in any
    world (short of the ticket counter overflowing).  The stored guesses
    decrypt to the validated plaintexts (as 32-bit values), the held balance
    grows by the price and a [TicketPurchased] event is appended. *)
Theorem buyTicket_stores_guesses (E : Env) sender fc sc ip v1 v2 w :
  hasTicket (getPlayer w sender) = false →
  verifyInput E sender fc ip = Some v1 →
  verifyInput E sender sc ip = Some v2 →
  totalTickets w + 1 < UINT256_MOD →
  ∃ w', buyTicket E sender TICKET_PRICE fc sc ip w = Ok (tt, w') ∧
    decrypt (fhe w') (firstGuess (getPlayer w' sender)) = wrap32 v1 ∧
    decrypt (fhe w') (secondGuess (getPlayer w' sender)) = wrap32 v2 ∧
    balance w' = balance w + TICKET_PRICE ∧
    events w' = events w ++ [TicketPurchased sender].
Proof.
  intros Ht H1 H2 Hn.
  exists (boughtWorld E sender fc sc v1 v2 w). split.
  - rewrite buyTicket_cases, Ht, H1, H2, Z.eqb_refl. cbn [negb].
    destruct (Z.ltb_spec (totalTickets w + 1) UINT256_MOD); [done | lia].
  - rewrite getPlayer_boughtWorld.
    destruct (decide (sender = sender)) as [_|]; [|done].
    cbn [firstGuess secondGuess].
    destruct (decrypt_boughtWorld_guesses E sender fc sc ip v1 v2 w H1 H2)
      as (-> & ->).
    auto.
Qed.

Lemma buyTicket_stores_guesses_witness :
  ∃ w', buyTicket E0 bob TICKET_PRICE 2 8 [] afterRound = Ok (tt, w') ∧
    decrypt (fhe w') (firstGuess (getPlayer w' bob)) = wrap32 2 ∧
    decrypt (fhe w') (secondGuess (getPlayer w' bob)) = wrap32 8 ∧
    balance w' = balance afterRound + TICKET_PRICE ∧
    events w' = events afterRound ++ [TicketPurchased bob].
Proof.
  apply (buyTicket_stores_guesses E0 bob 2%N 8%N [] 2 8 afterRound);
    vm_compute; reflexivity.
Defined.

(** X4.  A [buyTicket] that passes the price check and the active-ticket
    check but whose first or second input does not validate reverts with the
    library's proof failure, and the transaction changes nothing: the payment
    is not kept. *)
Theorem buyTicket_bad_proof (E : Env) sender fc sc ip w :
  hasTicket (getPlayer w sender) = false →
  verifyInput E sender fc ip = None ∨ verifyInput E sender sc ip = None →
  buyTicket E sender TICKET_PRICE fc sc ip w = Revert FHE.ProofInvalid ∧
  step E (sender, BuyTicket TICKET_PRICE fc sc ip) w = w.
Proof.
  intros Ht Hbad.
  assert (Hrun : buyTicket E sender TICKET_PRICE fc sc ip w
                 = Revert FHE.ProofInvalid).
  { rewrite buyTicket_cases, Ht, Z.eqb_refl. cbn [negb].
    destruct Hbad as [-> | H2]; [done|].
    rewrite H2. now destruct (verifyInput E sender fc ip). }
  split; [exact Hrun|].
  unfold step. cbn [fst snd exec]. unfold bind. now rewrite Hrun.
Qed.

Lemma buyTicket_bad_proof_witness :
  buyTicket E1 alice TICKET_PRICE 1 1 [] w0 = Revert FHE.ProofInvalid ∧
  step E1 (alice, BuyTicket TICKET_PRICE 1 1 []) w0 = w0.
Proof.
  apply (buyTicket_bad_proof E1 alice 1%N 1%N [] w0).
  - vm_compute. reflexivity.
  - left. vm_compute. reflexivity.
Defined.

(** ** The lifecycle of a record *)

Section Lifecycle.
Variable E : Env.

Lemma lifecycle_deploy deployer p : lifecycle (deploy deployer) p.
Proof.
  unfold lifecycle. rewrite getPlayer_deploy. simpl.
  repeat split; try done.
Qed.

Lemma lifecycle_outcome tx ok w w' :
  Inv E w → Outcome E w tx ok w' →
  (∀ p, lifecycle w p) → ∀ p, lifecycle w' p.
Proof.
  intros HI Hout Hall p. pose proof HI as (Hwf & Hlt & _ & _ & Hcomp & _).
  assert (Hw : ∀ q, ∃ k1 k2,
             lastWinningFirst (getPlayer w q) = Computed k1 ∧
             lastWinningSecond (getPlayer w q) = Computed k2 ∧
             (k1 < nextHandle (fhe w))%N ∧ (k2 < nextHandle (fhe w))%N).
  { intros q.
    destruct (Hcomp q (lastWinningFirst (getPlayer w q))) as (k1 & H1);
      [rewrite elem_of_computedFields; auto|].
    destruct (Hcomp q (lastWinningSecond (getPlayer w q))) as (k2 & H2);
      [rewrite elem_of_computedFields; auto|].
    exists k1, k2. split; [exact H1|]. split; [exact H2|].
    assert (B1 : (rank (lastWinningFirst (getPlayer w q))
                  ≤ nextHandle (fhe w))%N)
      by (apply (Hlt q); rewrite elem_of_handlesOf; auto 6).
    assert (B2 : (rank (lastWinningSecond (getPlayer w q))
                  ≤ nextHandle (fhe w))%N)
      by (apply (Hlt q); rewrite elem_of_handlesOf; auto 6).
    rewrite H1 in B1. rewrite H2 in B2. cbn [rank] in B1, B2. lia. }
  assert (Hkeep : ∀ q,
            decrypt (fhe w') (lastWinningFirst (getPlayer w q))
            = decrypt (fhe w) (lastWinningFirst (getPlayer w q)) ∧
            decrypt (fhe w') (lastWinningSecond (getPlayer w q))
            = decrypt (fhe w) (lastWinningSecond (getPlayer w q))).
  { intros q. destruct (Hw q) as (k1 & k2 & -> & -> & B1 & B2).
    split; eapply outcome_decrypt; eassumption. }
  pose proof (Hall p) as Hp. pose proof (Hkeep p) as (K1 & K2).
  destruct Hout as [sender c ok Hok | to amount _ _ _ _
                   | sender fc sc ip v1 v2 Ht H1 H2
                   | sender st' Ht Hst]; try exact Hp.
  - unfold lifecycle in *. rewrite getPlayer_boughtWorld.
    destruct (decide (p = sender)) as [->|Hne].
    + destruct Hp as (_ & _ & Hp3 & _ & Hp5).
      cbn [hasTicket hasResult hasPoints encryptedPoints firstGuess secondGuess
           lastWinningFirst lastWinningSecond andb].
      split; [reflexivity|]. split; [discriminate|].
      split; [exact Hp3|]. split; [discriminate|].
      rewrite K1, K2. exact Hp5.
    + destruct Hp as (Hp1 & Hp2 & Hp3 & Hp4 & Hp5).
      do 4 (split; [assumption|]).
      rewrite K1, K2. exact Hp5.
  - unfold lifecycle in *. rewrite getPlayer_drawnWorld.
    destruct (decide (p = sender)) as [->|Hne].
    + destruct Hst as (_ & _ & _ & _ & Hd1 & Hd2 & _).
      cbn [hasTicket hasResult hasPoints encryptedPoints firstGuess secondGuess
           lastWinningFirst lastWinningSecond andb fhe drawnWorld].
      rewrite Hd1, Hd2.
      split; [reflexivity|]. split; [reflexivity|].
      split; [discriminate|]. split; [discriminate|].
      intros _. split; apply digitOf_range.
    + destruct Hp as (Hp1 & Hp2 & Hp3 & Hp4 & Hp5).
      do 4 (split; [assumption|]).
      rewrite K1, K2. exact Hp5.
Qed.

Lemma lifecycle_reachable w : reachable E w → ∀ p, lifecycle w p.
Proof.
  induction 1 as [d | tx w Hw IH | v w _ IH].
  - apply lifecycle_deploy.
  - pose proof (Inv_reachable E w Hw) as HI.
    exact (lifecycle_outcome tx _ w _ HI (step_outcome E tx w HI) IH).
  - exact IH.
Qed.

End Lifecycle.

(** X5.  In every reachable world a record is in one of three shapes: no
    ticket and no result, an active ticket without a result, or a result
    without a ticket.  A result implies accrued points; a record without
    accrued points has its points and its two winning fields unwritten; and a
    record with neither a ticket nor accrued points was never written at
    all. *)
Theorem record_lifecycle (E : Env) w p :
  reachable E w →
  hasTicket (getPlayer w p) && hasResult (getPlayer w p) = false ∧
  (hasResult (getPlayer w p) = true → hasPoints (getPlayer w p) = true) ∧
  (hasPoints (getPlayer w p) = false →
   encryptedPoints (getPlayer w p) = zeroHandle ∧
   lastWinningFirst (getPlayer w p) = zeroHandle ∧
   lastWinningSecond (getPlayer w p) = zeroHandle) ∧
  (hasTicket (getPlayer w p) = false → hasPoints (getPlayer w p) = false →
   getPlayer w p = emptyPlayer).
Proof.
  intros Hreach.
  destruct (lifecycle_reachable E w Hreach p) as (H1 & H2 & H3 & H4 & _).
  auto.
Qed.

Lemma record_lifecycle_witness :
  hasTicket (getPlayer afterSecondBuy alice)
  && hasResult (getPlayer afterSecondBuy alice) = false ∧
  (hasResult (getPlayer afterSecondBuy alice) = true →
   hasPoints (getPlayer afterSecondBuy alice) = true) ∧
  (hasPoints (getPlayer afterSecondBuy alice) = false →
   encryptedPoints (getPlayer afterSecondBuy alice) = zeroHandle ∧
   lastWinningFirst (getPlayer afterSecondBuy alice) = zeroHandle ∧
   lastWinningSecond (getPlayer afterSecondBuy alice) = zeroHandle) ∧
  (hasTicket (getPlayer afterSecondBuy alice) = false →
   hasPoints (getPlayer afterSecondBuy alice) = false →
   getPlayer afterSecondBuy alice = emptyPlayer).
Proof.
  apply (record_lifecycle E0 afterSecondBuy alice).
  exact afterSecondBuy_reachable.
Defined.

(** X6.  In every reachable world the winning digits recorded for a player
    who has drawn at least once decrypt to values in [1,9], also after later
    purchases and after the transactions of other players. *)
Theorem winning_digits_in_range (E : Env) w p :
  reachable E w →
  hasPoints (getPlayer w p) = true →
  1 ≤ decrypt (fhe w) (lastWinningFirst (getPlayer w p)) ≤ 9 ∧
  1 ≤ decrypt (fhe w) (lastWinningSecond (getPlayer w p)) ≤ 9.
Proof.
  intros Hreach Hp.
  destruct (lifecycle_reachable E w Hreach p) as (_ & _ & _ & _ & H5).
  now apply H5.
Qed.

Lemma winning_digits_in_range_witness :
  1 ≤ decrypt (fhe (run E0 othersPlay afterSecondBuy))
        (lastWinningFirst (getPlayer (run E0 othersPlay afterSecondBuy) alice)) ≤ 9 ∧
  1 ≤ decrypt (fhe (run E0 othersPlay afterSecondBuy))
        (lastWinningSecond (getPlayer (run E0 othersPlay afterSecondBuy) alice)) ≤ 9.
Proof.
  apply (winning_digits_in_range E0 (run E0 othersPlay afterSecondBuy) alice).
  - apply reachable_run, afterSecondBuy_reachable.
  - vm_compute. reflexivity.
Defined.

(** X7.  A purchase, a draw or a query sent by one account never touches
    the record of another player: in a reachable world that player's
    record, points and recorded winning digits are the same after the
    transaction as before.  (A withdrawal is left out: its transfer runs
    the recipient's code.) *)
Theorem other_players_untouched (E : Env) w tx p :
  reachable E w →
  tx.1 ≠ p →
  isWithdraw tx.2 = false →
  getPlayer (step E tx w) p = getPlayer w p ∧
  pointsOf (step E tx w) p = pointsOf w p ∧
  decrypt (fhe (step E tx w)) (lastWinningFirst (getPlayer w p))
  = decrypt (fhe w) (lastWinningFirst (getPlayer w p)) ∧
  decrypt (fhe (step E tx w)) (lastWinningSecond (getPlayer w p))
  = decrypt (fhe w) (lastWinningSecond (getPlayer w p)).
Proof.
  intros Hreach Hne _.
  pose proof (Inv_reachable E w Hreach) as HI.
  pose proof (step_outcome E tx w HI) as Hout.
  pose proof (outcome_other_player E p _ _ _ _ Hout Hne) as Hrec.
  split; [exact Hrec|].
  assert (Hkeep : ∀ h, h ∈ computedFields (getPlayer w p) →
            decrypt (fhe (step E tx w)) h = decrypt (fhe w) h).
  { intros h Hin. destruct HI as (_ & Hlt & _ & _ & Hcomp & _).
    destruct (Hcomp p h Hin) as (k & ->).
    apply (outcome_decrypt E _ _ _ _ _ Hout).
    assert (Hb : (rank (Computed k) ≤ nextHandle (fhe w))%N).
    { apply (Hlt p). apply handlesOf_split. now right. }
    cbn [rank] in Hb. lia. }
  unfold pointsOf. rewrite Hrec.
  rewrite !Hkeep by (rewrite elem_of_computedFields; auto). done.
Qed.

Lemma other_players_untouched_witness :
  getPlayer (step E0 (bob, buyOnes) afterRound) alice = getPlayer afterRound alice ∧
  pointsOf (step E0 (bob, buyOnes) afterRound) alice = pointsOf afterRound alice ∧
  decrypt (fhe (step E0 (bob, buyOnes) afterRound))
          (lastWinningFirst (getPlayer afterRound alice))
  = decrypt (fhe afterRound) (lastWinningFirst (getPlayer afterRound alice)) ∧
  decrypt (fhe (step E0 (bob, buyOnes) afterRound))
          (lastWinningSecond (getPlayer afterRound alice))
  = decrypt (fhe afterRound) (lastWinningSecond (getPlayer afterRound alice)).
Proof.
  apply (other_players_untouched E0 afterRound (bob, buyOnes) alice).
  - exact afterRound_reachable.
  - vm_compute. discriminate.
  - reflexivity.
Defined.

(** X20.  Every grant that a purchase, a draw or a query makes is a grant
    to the contract itself or to the sender of the transaction, on a
    ciphertext stored in the sender's own record: in a reachable world, an
    account allowed on a handle after such a transaction either was allowed
    on it before, or is the contract or the sender, and the handle is then a
    field of the sender's record. *)
Theorem grants_to_contract_and_caller (E : Env) w tx h a :
  reachable E w →
  isWithdraw tx.2 = false →
  isAllowed (fhe (step E tx w)) h a →
  isAllowed (fhe w) h a ∨
  ((a = this E ∨ a = tx.1) ∧ h ∈ handlesOf (getPlayer (step E tx w) tx.1)).
Proof.
  intros Hreach _. apply Inv_reachable in Hreach.
  pose proof (step_outcome E tx w Hreach) as Hout.
  assert (Hgen : ∀ ok w', Outcome E w tx ok w' →
            isAllowed (fhe w') h a →
            isAllowed (fhe w) h a ∨
            ((a = this E ∨ a = tx.1) ∧ h ∈ handlesOf (getPlayer w' tx.1))).
  { clear Hout. intros ok w' Hout.
    destruct Hout as [sender c ok Hok | to amount _ _ _ _
                     | sender fc sc ip v1 v2 Ht H1 H2
                     | sender st' Ht Hst]; cbn [fst]; try (now left).
    - unfold isAllowed. rewrite acl_boughtWorld.
      intros [Hin | [Hh Ha]]; [now left | right].
      split; [exact Ha|]. rewrite getPlayer_boughtWorld.
      destruct (decide (sender = sender)) as [_|]; [|done].
      rewrite elem_of_handlesOf. cbn [firstGuess secondGuess]. tauto.
    - destruct Hst as (_ & Hacl & _). unfold isAllowed.
      cbn [fhe drawnWorld]. rewrite Hacl.
      intros [Hin | [Hh Ha]]; [now left | right].
      split; [exact Ha|]. rewrite getPlayer_drawnWorld.
      destruct (decide (sender = sender)) as [_|]; [|done].
      rewrite elem_of_handlesOf.
      cbn [encryptedPoints lastWinningFirst lastWinningSecond].
      tauto. }
  exact (Hgen _ _ Hout).
Qed.

Lemma grants_to_contract_and_caller_witness :
  isAllowed (fhe afterRound) (Imported 1) bob ∨
  ((bob = this E0 ∨ bob = (bob, buyOnes).1) ∧
   Imported 1 ∈ handlesOf (getPlayer (step E0 (bob, buyOnes) afterRound)
                                     (bob, buyOnes).1)).
Proof.
  apply (grants_to_contract_and_caller E0 afterRound (bob, buyOnes)
           (Imported 1) bob).
  - exact afterRound_reachable.
  - reflexivity.
  - unfold isAllowed.
    assert (H : bool_decide ((Imported 1, bob)
                             ∈ acl (fhe (step E0 (bob, buyOnes) afterRound)))
                = true) by (vm_compute; reflexivity).
    now apply bool_decide_eq_true in H.
Defined.

(** ** Counters, events and funds *)

Section Accounting.
Variable E : Env.

Lemma purchasedIn_app evs1 evs2 :
  purchasedIn (evs1 ++ evs2) = (purchasedIn evs1 + purchasedIn evs2)%nat.
Proof.
  induction evs1 as [|[q|q] evs1 IH]; simpl; [done | now rewrite IH | exact IH].
Qed.

Lemma completedIn_app evs1 evs2 :
  completedIn (evs1 ++ evs2) = (completedIn evs1 + completedIn evs2)%nat.
Proof.
  induction evs1 as [|[q|q] evs1 IH]; simpl; [done | exact IH | now rewrite IH].
Qed.

(** The counters and the event log move together across one transaction. *)
Lemma counters_outcome tx ok w w' :
  Outcome E w tx ok w' →
  totalTickets w = Z.of_nat (purchasedIn (events w)) →
  totalDraws w = Z.of_nat (completedIn (events w)) →
  totalTickets w' = Z.of_nat (purchasedIn (events w')) ∧
  totalDraws w' = Z.of_nat (completedIn (events w')).
Proof.
  intros Hout HT HD.
  destruct Hout as [sender c ok Hok | to amount Hto Hamt _ _
                   | sender fc sc ip v1 v2 Ht H1 H2
                   | sender st' Ht Hst]; try (split; assumption).
  - unfold boughtWorld. cbn [totalTickets totalDraws events].
    rewrite purchasedIn_app, completedIn_app. simpl. lia.
  - unfold drawnWorld. cbn [totalTickets totalDraws events].
    rewrite purchasedIn_app, completedIn_app. simpl. lia.
Qed.

Lemma counters_reachable w :
  reachable E w →
  totalTickets w = Z.of_nat (purchasedIn (events w)) ∧
  totalDraws w = Z.of_nat (completedIn (events w)).
Proof.
  induction 1 as [d | tx w Hw (HT & HD) | v w _ IH].
  - split; reflexivity.
  - pose proof (Inv_reachable E w Hw) as HI.
    exact (counters_outcome tx _ w _ (step_outcome E tx w HI) HT HD).
  - exact IH.
Qed.

(** Active tickets across a write to one record. *)
Lemma activeTickets_insert_on (m : gmap N PlayerState) s r :
  hasTicket (default emptyPlayer (m !! s)) = false → hasTicket r = true →
  size (filter (λ kv : N * PlayerState, hasTicket kv.2 = true) (<[s := r]> m))
  = S (size (filter (λ kv : N * PlayerState, hasTicket kv.2 = true) m)).
Proof.
  intros Hold Hnew.
  rewrite map_filter_insert_True by exact Hnew.
  apply map_size_insert_None. apply map_lookup_filter_None.
  destruct (m !! s) as [r0|]; [right | now left].
  intros x [= <-]. simpl in *. congruence.
Qed.

Lemma activeTickets_insert_off (m : gmap N PlayerState) s r :
  hasTicket (default emptyPlayer (m !! s)) = true → hasTicket r = false →
  S (size (filter (λ kv : N * PlayerState, hasTicket kv.2 = true) (<[s := r]> m)))
  = size (filter (λ kv : N * PlayerState, hasTicket kv.2 = true) m).
Proof.
  intros Hold Hnew.
  rewrite map_filter_insert_False by (simpl; congruence).
  rewrite map_filter_delete.
  destruct (m !! s) as [r0|] eqn:Hs; [|discriminate]. simpl in Hold.
  assert (Hin : filter (λ kv : N * PlayerState, hasTicket kv.2 = true) m !! s
                = Some r0) by now apply map_lookup_filter_Some.
  rewrite map_size_delete, Hin.
  assert (Hpos : size (filter (λ kv : N * PlayerState, hasTicket kv.2 = true) m)
                 ≠ O).
  { intros Hz. apply map_size_empty_inv in Hz. rewrite Hz in Hin.
    now rewrite lookup_empty in Hin. }
  destruct (size (filter (λ kv : N * PlayerState, hasTicket kv.2 = true) m));
    [done | reflexivity].
Qed.

Lemma activeTickets_outcome tx ok w w' :
  Outcome E w tx ok w' →
  totalTickets w - totalDraws w = Z.of_nat (activeTickets w) →
  totalTickets w' - totalDraws w' = Z.of_nat (activeTickets w').
Proof.
  intros Hout HK.
  destruct Hout as [sender c ok Hok | to amount _ _ _ _
                   | sender fc sc ip v1 v2 Ht H1 H2
                   | sender st' Ht Hst]; try exact HK.
  - unfold activeTickets, boughtWorld in *. cbn [players totalTickets totalDraws].
    rewrite activeTickets_insert_on; [lia | exact Ht | reflexivity].
  - unfold activeTickets, drawnWorld in *. cbn [players totalTickets totalDraws].
    rewrite <- (activeTickets_insert_off (players w) sender
                  (mkPlayer (firstGuess (getPlayer w sender))
                     (secondGuess (getPlayer w sender))
                     (Computed (if hasPoints (getPlayer w sender)
                                then nextHandle (fhe w) + 26
                                else nextHandle (fhe w) + 25))
                     (Computed (nextHandle (fhe w) + 3))
                     (Computed (nextHandle (fhe w) + 7))
                     false true true)) in HK; [lia | exact Ht | reflexivity].
Qed.

Lemma activeTickets_reachable w :
  reachable E w →
  totalTickets w - totalDraws w = Z.of_nat (activeTickets w).
Proof.
  induction 1 as [d | tx w Hw IH | v w _ IH].
  - unfold activeTickets. simpl.
    now rewrite map_filter_empty, map_size_empty.
  - pose proof (Inv_reachable E w Hw) as HI.
    exact (activeTickets_outcome tx _ w _ (step_outcome E tx w HI) IH).
  - exact IH.
Qed.

End Accounting.

(** X8.  In every reachable world each counter equals the number of events
    of its kind in the log: [totalTickets] counts the [TicketPurchased]
    events and [totalDraws] the [DrawCompleted] events. *)
Theorem counters_count_events (E : Env) w :
  reachable E w →
  totalTickets w = Z.of_nat (purchasedIn (events w)) ∧
  totalDraws w = Z.of_nat (completedIn (events w)).
Proof.
  apply counters_reachable.
Qed.

Lemma counters_count_events_witness :
  totalTickets (run E0 othersPlay afterSecondBuy)
  = Z.of_nat (purchasedIn (events (run E0 othersPlay afterSecondBuy))) ∧
  totalDraws (run E0 othersPlay afterSecondBuy)
  = Z.of_nat (completedIn (events (run E0 othersPlay afterSecondBuy))).
Proof.
  apply (counters_count_events E0 (run E0 othersPlay afterSecondBuy)).
  apply reachable_run, afterSecondBuy_reachable.
Defined.

(** X9.  In every reachable world the tickets sold are the draws played
    plus the records that hold an active ticket; in particular there are
    never more draws than tickets. *)
Theorem tickets_are_draws_plus_active (E : Env) w :
  reachable E w →
  totalTickets w = totalDraws w + Z.of_nat (activeTickets w) ∧
  totalDraws w ≤ totalTickets w.
Proof.
  intros Hreach. pose proof (activeTickets_reachable E w Hreach) as H.
  lia.
Qed.

Lemma tickets_are_draws_plus_active_witness :
  totalTickets (run E0 othersPlay afterSecondBuy)
  = totalDraws (run E0 othersPlay afterSecondBuy)
    + Z.of_nat (activeTickets (run E0 othersPlay afterSecondBuy)) ∧
  totalDraws (run E0 othersPlay afterSecondBuy)
  ≤ totalTickets (run E0 othersPlay afterSecondBuy).
Proof.
  apply (tickets_are_draws_plus_active E0 (run E0 othersPlay afterSecondBuy)).
  apply reachable_run, afterSecondBuy_reachable.
Defined.

(** X11.  The owner is the deployer for ever, and the only transaction that
    lowers the held balance is a [withdraw] sent by the deployer, to a
    non-null recipient, of an amount within the balance. *)
Theorem only_owner_lowers_balance (E : Env) deployer txs tx :
  owner (run E txs (deploy deployer)) = deployer ∧
  (balance (step E tx (run E txs (deploy deployer)))
   < balance (run E txs (deploy deployer)) →
   tx.1 = deployer ∧
   ∃ to amount, tx.2 = Withdraw to amount ∧ to ≠ 0%N ∧
                0 < amount ≤ balance (run E txs (deploy deployer)) ∧
                succeeds E tx (run E txs (deploy deployer)) = true).
Proof.
  pose proof (owner_run E deployer txs) as Hown.
  split; [exact Hown|].
  set (w := run E txs (deploy deployer)) in *.
  assert (HI : Inv E w) by apply Inv_run, Inv_deploy.
  intros Hlt.
  destruct (step_outcome E tx w HI) as [sender c ok Hok | to amount Hto Hamt _ _
                   | sender fc sc ip v1 v2 Ht H1 H2
                   | sender st' Ht Hst].
  - lia.
  - cbn [fst snd]. split; [exact Hown|]. exists to, amount.
    simpl in Hlt. repeat split; auto; lia.
  - unfold boughtWorld in Hlt. simpl in Hlt. unfold TICKET_PRICE in Hlt. lia.
  - unfold drawnWorld in Hlt. simpl in Hlt. lia.
Qed.

Lemma only_owner_lowers_balance_witness :
  owner (run E0 aliceRound (deploy deployer)) = deployer ∧
  (deployer, Withdraw bob 5).1 = deployer ∧
  ∃ to amount, (deployer, Withdraw bob 5).2 = Withdraw to amount ∧ to ≠ 0%N ∧
               0 < amount ≤ balance (run E0 aliceRound (deploy deployer)) ∧
               succeeds E0 (deployer, Withdraw bob 5)
                 (run E0 aliceRound (deploy deployer)) = true.
Proof.
  destruct (only_owner_lowers_balance E0 deployer aliceRound
              (deployer, Withdraw bob 5)) as (H1 & H2).
  split; [exact H1|]. apply H2. vm_compute. reflexivity.
Defined.

(** ** Points and draws *)

Section RewardBounds.

Lemma sumZ_le_length l :
  Forall (λ r, r = 0 ∨ r = 100 ∨ r = 1000) l →
  sumZ l ≤ 1000 * Z.of_nat (length l).
Proof.
  induction 1 as [|x l Hx _ IH]; unfold sumZ in *; simpl length; simpl foldr;
    [lia|].
  destruct Hx as [-> | [-> | ->]]; lia.
Qed.

End RewardBounds.

(** X13.  A ticket pays once: right after a successful draw, a second
    [startDraw] of the same player reverts with "No active ticket" and
    changes nothing, so no reward is accrued twice. *)
Theorem no_second_draw (E : Env) w p :
  reachable E w →
  succeeds E (p, StartDraw) w = true →
  startDraw E p (step E (p, StartDraw) w) = Revert NoActiveTicket ∧
  step E (p, StartDraw) (step E (p, StartDraw) w) = step E (p, StartDraw) w.
Proof.
  intros Hreach Hok. apply Inv_reachable in Hreach.
  destruct (flags_outcome E p _ _ w _ (step_outcome E (p, StartDraw) w Hreach))
    as (_ & _ & Ht).
  rewrite Hok in Ht. unfold isBuyBy, isDrawBy in Ht. cbn [fst snd] in Ht.
  rewrite andb_false_r in Ht.
  destruct (bool_decide_reflect (p = p)) as [_|]; [|done]. cbn [andb] in Ht.
  pose proof (startDraw_noTicket E p _ Ht) as Hrun.
  split; [exact Hrun|].
  unfold step at 1. cbn [fst snd exec]. unfold bind. now rewrite Hrun.
Qed.

Lemma no_second_draw_witness :
  startDraw E0 alice (step E0 (alice, StartDraw) afterSecondBuy)
  = Revert NoActiveTicket ∧
  step E0 (alice, StartDraw) (step E0 (alice, StartDraw) afterSecondBuy)
  = step E0 (alice, StartDraw) afterSecondBuy.
Proof.
  apply (no_second_draw E0 afterSecondBuy alice).
  - exact afterSecondBuy_reachable.
  - vm_compute. reflexivity.
Defined.

(** X14.  With at most 4294967 successful draws of a player since
    deployment the 32-bit total cannot have wrapped: the points are exactly
    the sum of the rewards, and at most 1000 per draw. *)
Theorem points_exact_below_bound (E : Env) deployer p txs :
  Z.of_nat (drawsOf E p txs (deploy deployer)) ≤ 4294967 →
  pointsOf (run E txs (deploy deployer)) p
  = sumZ (rewardsOf E p txs (deploy deployer)) ∧
  pointsOf (run E txs (deploy deployer)) p
  ≤ 1000 * Z.of_nat (drawsOf E p txs (deploy deployer)).
Proof.
  intros Hn.
  pose proof (rewardsOf_values E p txs (deploy deployer)) as Hv.
  pose proof (sumZ_nonneg _ Hv) as H0.
  pose proof (sumZ_le_length _ Hv) as H1.
  rewrite (rewardsOf_length E) in H1.
  rewrite (points_run E p txs _ (Inv_deploy E deployer)), pointsOf_deploy.
  rewrite Z.add_0_l, wrap32_small; [lia|].
  unfold UINT32_MOD. lia.
Qed.

Lemma points_exact_below_bound_witness :
  pointsOf (run E0 (rounds 2) (deploy deployer)) alice
  = sumZ (rewardsOf E0 alice (rounds 2) (deploy deployer)) ∧
  pointsOf (run E0 (rounds 2) (deploy deployer)) alice
  ≤ 1000 * Z.of_nat (drawsOf E0 alice (rounds 2) (deploy deployer)).
Proof.
  apply (points_exact_below_bound E0 deployer alice (rounds 2)).
  vm_compute. discriminate.
Defined.

(** X15.  The contract does not validate the range of a guess, and a
    ticket with a guess outside [1,9] can never score the double match: the
    reward of its draw is at most 100. *)
Theorem out_of_range_guess_caps_reward (E : Env) w p :
  reachable E w →
  succeeds E (p, StartDraw) w = true →
  ¬ (1 ≤ decrypt (fhe w) (firstGuess (getPlayer w p)) ≤ 9) ∨
  ¬ (1 ≤ decrypt (fhe w) (secondGuess (getPlayer w p)) ≤ 9) →
  drawReward w (step E (p, StartDraw) w) p ≤ 100.
Proof.
  intros Hreach Hok Hout. apply Inv_reachable in Hreach.
  assert (Hgen : ∀ tx ok w', Outcome E w tx ok w' →
                   tx = (p, StartDraw) → ok = true →
                   drawReward w w' p ≤ 100).
  { intros tx ok w' Hstep.
    destruct Hstep as [sender c ok Hok' | to amount _ _ _ _
                      | sender fc sc ip v1 v2 Ht H1 H2
                      | sender st' Ht Hst]; intros Htx Hokeq; try discriminate.
    - injection Htx as -> ->. destruct Hok' as [? | Hv]; [congruence|].
      simpl in Hv. discriminate.
    - injection Htx as ->.
      unfold drawReward. rewrite getPlayer_drawnWorld.
      destruct (decide (p = p)) as [_|]; [|done].
      cbn [lastWinningFirst lastWinningSecond fhe drawnWorld].
      destruct Hst as (_ & _ & _ & _ & -> & -> & _).
      pose proof (digitOf_range (randSource E (randCounter (fhe w)))) as Hd1.
      pose proof (digitOf_range (randSource E (randCounter (fhe w) + 1))) as Hd2.
      unfold rewardTier.
      destruct (Z.eqb_spec (decrypt (fhe w) (firstGuess (getPlayer w p)))
                  (digitOf (randSource E (randCounter (fhe w))))),
               (Z.eqb_spec (decrypt (fhe w) (secondGuess (getPlayer w p)))
                  (digitOf (randSource E (randCounter (fhe w) + 1))));
        simpl; lia. }
  exact (Hgen _ _ _ (step_outcome E (p, StartDraw) w Hreach) eq_refl Hok).
Qed.

Lemma afterZeroBuy_guess :
  decrypt (fhe afterZeroBuy) (firstGuess (getPlayer afterZeroBuy bob)) = 0.
Proof. vm_compute. reflexivity. Qed.

Lemma out_of_range_guess_caps_reward_witness :
  drawReward afterZeroBuy (step E0 (bob, StartDraw) afterZeroBuy) bob ≤ 100.
Proof.
  apply (out_of_range_guess_caps_reward E0 afterZeroBuy bob).
  - apply reach_step, afterRound_reachable.
  - vm_compute. reflexivity.
  - left. rewrite afterZeroBuy_guess. lia.
Defined.

(** ** Withdrawal guards *)

(** X16.  For the owner, [withdraw] to the null address reverts with
    "Invalid recipient" whatever the amount, and [withdraw] to a non-null
    address of more than the held balance reverts with "Insufficient
    balance"; either way the transaction changes nothing. *)
Theorem withdraw_guards (E : Env) sender to amount w :
  sender = owner w →
  (to = 0%N →
   withdraw E sender to amount w = Revert InvalidRecipient ∧
   step E (sender, Withdraw to amount) w = w) ∧
  (to ≠ 0%N → balance w < amount →
   withdraw E sender to amount w = Revert InsufficientBalance ∧
   step E (sender, Withdraw to amount) w = w).
Proof.
  intros Hown.
  assert (Hrev : ∀ r, withdraw E sender to amount w = Revert r →
                      step E (sender, Withdraw to amount) w = w).
  { intros r Hr. unfold step. cbn [fst snd exec]. unfold bind. now rewrite Hr. }
  split.
  - intros Hto.
    assert (Hrun : withdraw E sender to amount w = Revert InvalidRecipient).
    { rewrite withdraw_cases.
      destruct (bool_decide_reflect (sender = owner w)); [|done].
      now destruct (bool_decide_reflect (to = 0%N)). }
    split; [exact Hrun | exact (Hrev _ Hrun)].
  - intros Hto Hamt.
    assert (Hrun : withdraw E sender to amount w = Revert InsufficientBalance).
    { rewrite withdraw_cases.
      destruct (bool_decide_reflect (sender = owner w)); [|done].
      destruct (bool_decide_reflect (to = 0%N)); [done|].
      destruct (Z.leb_spec amount (balance w)); [lia | done]. }
    split; [exact Hrun | exact (Hrev _ Hrun)].
Qed.

Lemma withdraw_guards_witness :
  (withdraw E0 deployer 0 5 afterRound = Revert InvalidRecipient ∧
   step E0 (deployer, Withdraw 0 5) afterRound = afterRound) ∧
  (withdraw E0 deployer bob (2 * TICKET_PRICE) afterRound
   = Revert InsufficientBalance ∧
   step E0 (deployer, Withdraw bob (2 * TICKET_PRICE)) afterRound = afterRound).
Proof.
  assert (Ho : deployer = owner afterRound) by (vm_compute; reflexivity).
  split.
  - apply (withdraw_guards E0 deployer 0%N 5 afterRound Ho). reflexivity.
  - apply (withdraw_guards E0 deployer bob (2 * TICKET_PRICE) afterRound Ho).
    + vm_compute. discriminate.
    + vm_compute. reflexivity.
Defined.

(** ** The cipher display of the front end *)

Section Display.

Lemma jsSlice_prefix {A} (s : list A) n :
  jsSlice s 0 (Some (Z.of_nat n)) = take n s.
Proof.
  unfold jsSlice. cbv zeta. change (0 <? 0) with false. cbv iota.
  destruct (Z.ltb_spec (Z.of_nat n) 0); [lia|].
  rewrite (Z.min_l 0) by lia.
  change (Z.to_nat 0) with 0%nat. rewrite drop_0, Z.sub_0_r.
  destruct (Z.le_ge_cases (Z.of_nat n) (Z.of_nat (length s))).
  - rewrite Z.min_l by lia. now rewrite Nat2Z.id.
  - rewrite Z.min_r by lia. rewrite Nat2Z.id.
    rewrite !take_ge; [done | lia | lia].
Qed.

Lemma jsSlice_suffix {A} (s : list A) n :
  jsSlice s (- Z.of_nat (S n)) None = drop (length s - S n) s.
Proof.
  unfold jsSlice. cbv zeta.
  destruct (Z.ltb_spec (- Z.of_nat (S n)) 0); [|lia].
  replace (Z.to_nat (Z.max (Z.of_nat (length s) + - Z.of_nat (S n)) 0))
    with (length s - S n)%nat by lia.
  apply take_ge. rewrite length_drop. lia.
Qed.

End Display.

(** X17.  The cipher display shows "--" for a missing, empty or all-zero
    handle; any other handle is shown as its first ten characters, an
    ellipsis and its last six characters, never more than 19 characters in
    all and exactly 19 for a handle of ten or more characters. *)
Theorem formatCipher_shape (value : option (list Ascii.ascii)) :
  (value = None ∨ value = Some [] ∨ value = Some ZERO_CIPHER →
   formatCipher value = dashes) ∧
  (∀ v, value = Some v → v ≠ [] → v ≠ ZERO_CIPHER →
     formatCipher value = take 10 v ++ ellipsis ++ drop (length v - 6) v ∧
     (length (formatCipher value) ≤ 19)%nat ∧
     (10 ≤ length v → length (formatCipher value) = 19)%nat).
Proof.
  split.
  - intros [-> | [-> | ->]]; reflexivity.
  - intros v -> Hne Hnz. unfold formatCipher.
    rewrite bool_decide_eq_false_2 by exact Hne.
    rewrite bool_decide_eq_false_2 by exact Hnz. cbn [orb].
    change 10 with (Z.of_nat 10). rewrite jsSlice_prefix.
    change (-6) with (- Z.of_nat 6). rewrite jsSlice_suffix.
    split; [reflexivity|].
    rewrite !length_app, length_take, length_drop.
    change (length ellipsis) with 3%nat. lia.
Qed.

(** ** When a call succeeds *)

(** Settle a conjunction of equivalences between closed outcomes and
    conditions that the context decides. *)
Ltac cases_done :=
  repeat split; intros;
  repeat match goal with
         | H : ∃ _, _ |- _ => destruct H
         | H : _ ∧ _ |- _ => destruct H
         | H : _ ∨ _ |- _ => destruct H
         | H : is_Some None |- _ => destruct H
         end;
  try done; try lia; try congruence; eauto.

(** X18.  [buyTicket] succeeds exactly when the payment is [TICKET_PRICE],
    the caller has no active ticket, both inputs validate and the ticket
    counter does not overflow; the checks fail in this order, with the price
    reason, the active-ticket reason, the proof failure and the overflow
    panic. *)
Theorem buyTicket_success_iff (E : Env) sender value fc sc ip w :
  ((∃ w', buyTicket E sender value fc sc ip w = Ok (tt, w')) ↔
   value = TICKET_PRICE ∧
   hasTicket (getPlayer w sender) = false ∧
   is_Some (verifyInput E sender fc ip) ∧
   is_Some (verifyInput E sender sc ip) ∧
   totalTickets w + 1 < UINT256_MOD) ∧
  (buyTicket E sender value fc sc ip w = Revert InvalidPayment ↔
   value ≠ TICKET_PRICE) ∧
  (buyTicket E sender value fc sc ip w = Revert TicketAlreadyActive ↔
   value = TICKET_PRICE ∧ hasTicket (getPlayer w sender) = true) ∧
  (buyTicket E sender value fc sc ip w = Revert FHE.ProofInvalid ↔
   value = TICKET_PRICE ∧ hasTicket (getPlayer w sender) = false ∧
   (verifyInput E sender fc ip = None ∨ verifyInput E sender sc ip = None)) ∧
  (buyTicket E sender value fc sc ip w = Revert PanicOverflow ↔
   value = TICKET_PRICE ∧ hasTicket (getPlayer w sender) = false ∧
   is_Some (verifyInput E sender fc ip) ∧
   is_Some (verifyInput E sender sc ip) ∧
   UINT256_MOD ≤ totalTickets w + 1).
Proof.
  rewrite buyTicket_cases.
  unfold InvalidPayment, TicketAlreadyActive, FHE.ProofInvalid, PanicOverflow.
  destruct (Z.eqb_spec value TICKET_PRICE) as [Hv|Hv]; cbn [negb];
    [|cases_done].
  destruct (hasTicket (getPlayer w sender)) eqn:Ht; [cases_done|].
  destruct (verifyInput E sender fc ip) as [v1|] eqn:H1; [|cases_done].
  destruct (verifyInput E sender sc ip) as [v2|] eqn:H2; [|cases_done].
  destruct (Z.ltb_spec (totalTickets w + 1) UINT256_MOD); cases_done.
Qed.
